(** * A chained hash table of bids (HashTable.cpp)

    Shallow embedding of [class HashTable] and of the functions it calls,
    followed by the properties of Insert / Search / Remove / PrintAll.

    Conventions of the embedding
    - [unsigned int] and [int] are 32 bits wide and are represented by [Z]
      with the wrap-around written out ([to_uint], [to_int]).
    - [std::string] is [string]; [double amount] is carried as its IEEE
      binary64 bit pattern (the table only copies it).
    - A [Node*] chain is exclusively owned and acyclic, so [Node* next] is
      [option Node] ([None] is [nullptr]).
    - [vector<Node> nodes] is a [list Node]; [nodes.at(i)] throws
      [std::out_of_range] outside the vector, which is the fault
      [OutOfRange]; [x % 0] is the fault [DivideByZero]; incrementing an
      [int] that holds [INT_MAX] is the fault [SignedOverflow].
    - Memory exhaustion ([std::bad_alloc]) is not modelled. *)

From Stdlib Require Import ZArith Lia Ascii String.
From stdpp Require Import base list strings.

Local Open Scope Z_scope.

(** ** Machine integers *)

Definition UINT_MAX : Z := 4294967295.
Definition INT_MAX : Z := 2147483647.
Definition LONG_MAX : Z := 9223372036854775807.
Definition LONG_MIN : Z := -9223372036854775808.

(** Conversion to [unsigned int]: reduction modulo 2^32. *)
Definition to_uint (z : Z) : Z := z mod 2 ^ 32.

(** Conversion to [int]: the two's complement representative. *)
Definition to_int (z : Z) : Z := (z + 2 ^ 31) mod 2 ^ 32 - 2 ^ 31.

(** ** Faults *)

Inductive fault : Type :=
| DivideByZero     (* [x % 0] *)
| OutOfRange       (* [vector::at] outside the vector *)
| SignedOverflow.  (* [n++] on an [int] that holds [INT_MAX] *)

Inductive result (A : Type) : Type :=
| Ok (a : A)
| Fault (f : fault).
Arguments Ok {A} a.
Arguments Fault {A} f.

#[export] Instance result_ret : MRet result := fun A a => Ok a.
#[export] Instance result_bind : MBind result :=
  fun A B k r => match r with Ok a => k a | Fault f => Fault f end.

(** An operation completes normally. *)
Definition completes {A} (r : result A) : Prop := ∃ a, r = Ok a.

(** ** [atoi], as the C library computes it

    [atoi(s)] is [(int) strtol(s, NULL, 10)]: leading white space is
    skipped, an optional sign is read, then the longest run of decimal
    digits; no digits give 0.  Where the number does not fit, the C
    standard leaves the result open; the library's [strtol] saturates at
    [LONG_MIN]/[LONG_MAX] (64 bits) and the conversion to [int] keeps the
    low 32 bits.  Every value returned is an [int]. *)

Definition isspace (c : ascii) : bool :=
  let n := nat_of_ascii c in
  ((n =? 32) || ((9 <=? n) && (n <=? 13)))%nat.

Definition isdigit (c : ascii) : bool :=
  let n := nat_of_ascii c in ((48 <=? n) && (n <=? 57))%nat.

Definition digit_value (c : ascii) : Z := Z.of_nat (nat_of_ascii c) - 48.

Fixpoint skip_spaces (s : string) : string :=
  match s with
  | String c s' => if isspace c then skip_spaces s' else s
  | EmptyString => s
  end.

Fixpoint parse_digits (acc : Z) (s : string) : Z :=
  match s with
  | String c s' =>
      if isdigit c then parse_digits (10 * acc + digit_value c) s' else acc
  | EmptyString => acc
  end.

Definition clamp_long (z : Z) : Z := Z.max LONG_MIN (Z.min LONG_MAX z).

(** The optional sign: whether it is a minus, and the text behind it. *)
Definition split_sign (s : string) : bool * string :=
  match s with
  | String "-" s' => (true, s')
  | String "+" s' => (false, s')
  | _ => (false, s)
  end.

Definition strtol (s : string) : Z :=
  let (minus, body) := split_sign (skip_spaces s) in
  clamp_long (if minus then - parse_digits 0 body else parse_digits 0 body).

Definition atoi (s : string) : Z := to_int (strtol s).

(** Text in which [atoi] finds no number: after the white space and the
    optional sign there is no decimal digit. *)
Definition non_numeric (s : string) : bool :=
  match (split_sign (skip_spaces s)).2 with
  | String c _ => negb (isdigit c)
  | EmptyString => true
  end.

(** ** Data model *)

(** [struct Bid]; the default constructor leaves the strings empty and
    sets [amount = 0.0]. *)
Record Bid : Type := mkBid {
  bidId : string;
  title : string;
  fund : string;
  amount : Z
}.

Definition Bid_default : Bid := mkBid "" "" "" 0.

(** [struct Node]. *)
Local Unset Elimination Schemes.
Inductive Node : Type := mkNode {
  bid : Bid;
  key : Z;
  next : option Node
}.
Local Set Elimination Schemes.

(** [Node()]: [key = UINT_MAX; next = nullptr], [bid] default. *)
Definition Node_default : Node := mkNode Bid_default UINT_MAX None.

(** [Node(Bid aBid, unsigned int aKey)]. *)
Definition Node_new (aBid : Bid) (aKey : Z) : Node := mkNode aBid aKey None.

Record HashTable : Type := mkHashTable {
  nodes : list Node;
  tableSize : Z
}.

Definition DEFAULT_SIZE : Z := 179.

(** [HashTable(unsigned int size)]: [nodes.resize(size)] fills the vector
    with [size] default nodes. *)
Definition HashTable_sized (size : Z) : HashTable :=
  mkHashTable (replicate (Z.to_nat size) Node_default) size.

(** [HashTable()]. *)
Definition HashTable_default : HashTable := HashTable_sized DEFAULT_SIZE.

(** ** Operations *)

(** [unsigned int hash(int key) { return key % tableSize; }]: [key] is
    converted to [unsigned int] before the unsigned remainder is taken. *)
Definition hash (t : HashTable) (k : Z) : result Z :=
  if decide (tableSize t = 0) then Fault DivideByZero
  else Ok (to_uint k mod tableSize t).

(** [nodes.at(i)]. *)
Definition at_ (l : list Node) (i : Z) : result Node :=
  match l !! Z.to_nat i with
  | Some n => Ok n
  | None => Fault OutOfRange
  end.

(** Assignment through the pointer [&nodes.at(i)]. *)
Definition set_bucket (t : HashTable) (i : Z) (n : Node) : HashTable :=
  mkHashTable (<[Z.to_nat i := n]> (nodes t)) (tableSize t).

(** The collision loop of [Insert] followed by its [if (node == nullptr)]:
    walk from [n] while the identifiers differ; a node with the same
    identifier stops the walk and nothing is changed, the end of the chain
    gets a new node linked behind the last one. *)
Fixpoint append_if_absent (aBid : Bid) (aKey : Z) (n : Node) : Node :=
  match n with
  | mkNode b k nx =>
      if decide (bidId b = bidId aBid) then n
      else match nx with
           | None => mkNode b k (Some (Node_new aBid aKey))
           | Some n' => mkNode b k (Some (append_if_absent aBid aKey n'))
           end
  end.

Definition Insert (aBid : Bid) (t : HashTable) : result HashTable :=
  k ← hash t (atoi (bidId aBid));
  node ← at_ (nodes t) k;
  if decide (key node = UINT_MAX)
  then Ok (set_bucket t k (mkNode aBid k None))
  else Ok (set_bucket t k (append_if_absent aBid k node)).

(** One line written by [PrintAll]: the head of bucket [i]
    (["Key i: ..."]) or a chained record (["   ..."]). *)
Inductive line : Type :=
| KeyLine (i : Z) (b : Bid)
| ChainLine (b : Bid).

(** The inner [while] of [PrintAll], entered with a non-null [node]. *)
Fixpoint print_chain (n : Node) : list line :=
  match n with
  | mkNode b _ nx =>
      ChainLine b :: match nx with
                     | None => []
                     | Some n' => print_chain n'
                     end
  end.

(** The body of the [for] loop of [PrintAll]. *)
Definition print_bucket (i : Z) (n : Node) : list line :=
  if decide (key n = UINT_MAX) then []
  else KeyLine i (bid n) :: match next n with
                            | None => []
                            | Some n' => print_chain n'
                            end.

(** The [for] loop of [PrintAll] from index [i], with [count] iterations
    left. *)
Fixpoint PrintAll_from (t : HashTable) (i : Z) (count : nat)
  : result (list line) :=
  match count with
  | O => Ok []
  | S count' =>
      node ← at_ (nodes t) i;
      rest ← PrintAll_from t (i + 1) count';
      Ok (print_bucket i node ++ rest)
  end.

Definition PrintAll (t : HashTable) : result (list line) :=
  PrintAll_from t 0 (length (nodes t)).

(** The tail of [Remove]'s walk, once [prev] is a node that did not match:
    look at [prev->next]; a match is unlinked ([prev->next = node->next])
    and released ([delete node]), otherwise the walk goes on.  The second
    component is the bid of the released node, if any. *)
Fixpoint remove_after (id : string) (prev : Node) : Node * option Bid :=
  match prev with
  | mkNode b k None => (prev, None)
  | mkNode b k (Some n) =>
      if decide (bidId (bid n) = id) then (mkNode b k (next n), Some (bid n))
      else let (n', r) := remove_after id n in (mkNode b k (Some n'), r)
  end.

(** [Remove] returns the table and the bid of the node it released with
    [delete], if it released one. *)
Definition Remove (id : string) (t : HashTable)
  : result (HashTable * option Bid) :=
  k ← hash t (atoi id);
  node ← at_ (nodes t) k;
  if decide (bidId (bid node) = id)
  then Ok (set_bucket t k (mkNode (bid node) UINT_MAX None), None)
  else let (n', r) := remove_after id node in Ok (set_bucket t k n', r).

(** The loop of [Search]. *)
Fixpoint search_chain (id : string) (n : Node) : option Bid :=
  match n with
  | mkNode b _ nx =>
      if decide (bidId b = id) then Some b
      else match nx with
           | None => None
           | Some n' => search_chain id n'
           end
  end.

Definition Search (id : string) (t : HashTable) : result Bid :=
  k ← hash t (atoi id);
  node ← at_ (nodes t) k;
  Ok (default Bid_default (search_chain id node)).

(** ** Views on the representation *)

(** The bids along a chain, starting with the node itself. *)
Fixpoint chain_bids (n : Node) : list Bid :=
  match n with
  | mkNode b _ nx =>
      b :: match nx with
           | None => []
           | Some n' => chain_bids n'
           end
  end.

Definition link_bids (nx : option Node) : list Bid :=
  match nx with
  | None => []
  | Some n => chain_bids n
  end.

(** The records a bucket holds: none when the head slot carries the empty
    sentinel, the whole chain otherwise. *)
Definition bucket_bids (n : Node) : list Bid :=
  if decide (key n = UINT_MAX) then [] else chain_bids n.

(** The records of the table, bucket by bucket, each chain from its head. *)
Definition contents (t : HashTable) : list Bid :=
  mjoin (bucket_bids <$> nodes t).

(** An identifier is stored when a record of the table carries it. *)
Definition stored (id : string) (t : HashTable) : Prop :=
  ∃ b, b ∈ contents t ∧ bidId b = id.

(** [link pre rest]: the nodes [pre], linked in this order, followed by
    [rest]. *)
Fixpoint link (pre : list (Bid * Z)) (rest : option Node) : option Node :=
  match pre with
  | [] => rest
  | (b, k) :: pre' => Some (mkNode b k (link pre' rest))
  end.

(** The lines [PrintAll] is expected to write for a bucket, from the
    records it holds. *)
Definition bucket_lines (i : Z) (n : Node) : list line :=
  match bucket_bids n with
  | [] => []
  | b :: chained => KeyLine i b :: (ChainLine <$> chained)
  end.

(** ** Runs *)

Inductive op : Type :=
| OpInsert (b : Bid)
| OpRemove (id : string).

Definition step (o : op) (t : HashTable) : result HashTable :=
  match o with
  | OpInsert b => Insert b t
  | OpRemove id => r ← Remove id t; Ok r.1
  end.

Fixpoint run (ops : list op) (t : HashTable) : result HashTable :=
  match ops with
  | [] => Ok t
  | o :: ops' => t' ← step o t; run ops' t'
  end.

(** The records passed to [Insert] during a run, in call order. *)
Definition inserted (ops : list op) : list Bid :=
  omap (λ o, match o with OpInsert b => Some b | OpRemove _ => None end) ops.

Definition insert_all (bids : list Bid) (t : HashTable) : result HashTable :=
  run (OpInsert <$> bids) t.

(** States reachable from a constructor by [Insert] and [Remove]. *)
Inductive reachable : HashTable → Prop :=
| reachable_new size :
    0 ≤ size ≤ UINT_MAX → reachable (HashTable_sized size)
| reachable_Insert t b t' :
    reachable t → Insert b t = Ok t' → reachable t'
| reachable_Remove t id t' r :
    reachable t → Remove id t = Ok (t', r) → reachable t'.

(** ** The representation invariant *)

(** What holds of the head [n] of bucket [i] in a table of [size]
    buckets. *)
Record bucket_ok (size : Z) (i : nat) (n : Node) : Prop := {
  ok_empty : key n = UINT_MAX → next n = None;
  ok_home : ∀ b, b ∈ bucket_bids n →
            to_uint (atoi (bidId b)) mod size = Z.of_nat i;
  ok_nodup : NoDup (bidId <$> bucket_bids n)
}.

Record table_ok (t : HashTable) : Prop := {
  ok_size : 0 ≤ tableSize t ≤ UINT_MAX;
  ok_length : length (nodes t) = Z.to_nat (tableSize t);
  ok_buckets : ∀ i n, nodes t !! i = Some n → bucket_ok (tableSize t) i n
}.

(** ** Scenario of the size 5 table *)

Definition bid_0 : Bid := mkBid "0" "zero" "general" 1.
Definition bid_5 : Bid := mkBid "5" "five" "general" 2.
Definition bid_10 : Bid := mkBid "10" "ten" "general" 3.
Definition bid_1 : Bid := mkBid "1" "one" "general" 4.

Definition scenario : result HashTable :=
  insert_all [bid_0; bid_5; bid_10; bid_1] (HashTable_sized 5).

(** The table the scenario builds: bucket 0 holds "0", "5", "10" in this
    order, bucket 1 holds "1". *)
Definition chain_0_5_10 : Node :=
  mkNode bid_0 0 (Some (mkNode bid_5 0 (Some (mkNode bid_10 0 None)))).

Definition scenario_table : HashTable :=
  mkHashTable
    [chain_0_5_10; mkNode bid_1 1 None; Node_default; Node_default;
     Node_default] 5.

(** A second record under the identifier "0". *)
Definition bid_0_again : Bid := mkBid "0" "zero, again" "other" 7.

(** ** Further views *)

(** The record a line of [PrintAll] shows. *)
Definition line_bid (l : line) : Bid :=
  match l with
  | KeyLine _ b => b
  | ChainLine b => b
  end.

(** The [key] fields along a chain, starting with the node itself. *)
Fixpoint chain_keys (n : Node) : list Z :=
  match n with
  | mkNode _ k nx =>
      k :: match nx with
           | None => []
           | Some n' => chain_keys n'
           end
  end.

(** Every node of an occupied chain carries the index of its bucket. *)
Definition keys_ok (t : HashTable) : Prop :=
  ∀ i n, nodes t !! i = Some n → key n ≠ UINT_MAX →
         Forall (λ k, k = Z.of_nat i) (chain_keys n).

(** Every head slot with the empty sentinel is as the constructor left
    it: holds of tables on which nothing was removed. *)
Definition untouched_heads (t : HashTable) : Prop :=
  ∀ i n, nodes t !! i = Some n → key n = UINT_MAX → n = Node_default.

(** The number of nodes a [Remove] released. *)
Definition released_count (r : option Bid) : nat :=
  match r with
  | Some _ => 1
  | None => 0
  end.

(** The number of records the table holds. *)
Definition live_count (t : HashTable) : nat := length (contents t).

(** ** The loader *)

(** [s.c_str()] as a C function reads it: the text before the first
    NUL. *)
Fixpoint c_str (s : string) : string :=
  match s with
  | EmptyString => EmptyString
  | String c s' => if decide (c = "000"%char) then EmptyString
                   else String c (c_str s')
  end.

(** [str.erase(remove(str.begin(), str.end(), ch), str.end())]: the
    characters different from [ch], in their order. *)
Fixpoint remove_char (ch : ascii) (s : string) : string :=
  match s with
  | EmptyString => EmptyString
  | String c s' => if decide (c = ch) then remove_char ch s'
                   else String c (remove_char ch s')
  end.

(** [n++] on an [int]: defined up to [INT_MAX] only. *)
Definition increment (n : Z) : result Z :=
  if decide (n < INT_MAX) then Ok (n + 1) else Fault SignedOverflow.

(** What [loadBids] leaves: the table, the [int] written to [bidCount],
    and whether a [csv::Error] was caught and written to [cerr]. *)
Record loaded : Type := mkLoaded {
  loaded_table : HashTable;
  bidCount : Z;
  error_reported : bool
}.

Section Loader.

(** [atof], on the text a C function sees, as the bits of the result:
    parsing floating-point text is not modelled. *)
Variable atof : string → Z.

(** [double strToDouble(string str, char ch)]. *)
Definition strToDouble (str : string) (ch : ascii) : Z :=
  atof (c_str (remove_char ch str)).

(** The parsed file ([csv::Parser], whose header is not part of the
    sources): [file.rowCount()], the number of rows, and [file[i][j]],
    which either yields the text of a cell or throws [csv::Error]
    ([None]). *)
Variable rowCount : nat.
Variable cell : nat → nat → option string.

(** The four reads of one pass of the loop, in the order of the
    source; the first that throws ends the pass. *)
Definition read_bid (i : nat) : option Bid :=
  id ← cell i 1;
  ti ← cell i 0;
  fu ← cell i 8;
  am ← cell i 4;
  Some (mkBid id ti fu (strToDouble am "$")).

(** The [for] loop inside the [try], from row [i] with [count] rows
    left and [n] in [bidCount]: a [csv::Error] leaves the loop and is
    reported; a fault of [Insert] or of [bidCount++] is not caught. *)
Fixpoint loadBids_from (i : nat) (count : nat) (t : HashTable) (n : Z)
  : result loaded :=
  match count with
  | O => Ok (mkLoaded t n false)
  | S count' =>
      match read_bid i with
      | None => Ok (mkLoaded t n true)
      | Some b =>
          t' ← Insert b t;
          n' ← increment n;
          loadBids_from (S i) count' t' n'
      end
  end.

(** [loadBids], once the file is parsed: [bidCount = 0], then the loop. *)
Definition loadBids (t : HashTable) : result loaded :=
  loadBids_from 0 rowCount t 0.

(** The bids of the rows from [i] on that are read before a read
    throws, at most [count] of them. *)
Fixpoint rows_read (i : nat) (count : nat) : list Bid :=
  match count with
  | O => []
  | S count' =>
      match read_bid i with
      | None => []
      | Some b => b :: rows_read (S i) count'
      end
  end.

End Loader.

(** A parsed file of four rows: the third repeats the identifier of the
    first, the fourth is too short to have the columns read. *)
Definition sample_rows : list (list string) :=
  [ ["Chair"; "98011"; ""; ""; "$12.50"; ""; ""; ""; "General Fund"];
    ["Table"; "98190"; ""; ""; "$40.00"; ""; ""; ""; "Enterprise"];
    ["Lamp"; "98011"; ""; ""; "$7.00"; ""; ""; ""; "General Fund"];
    ["Desk"; "98200"] ].

Definition sample_cell (i j : nat) : option string :=
  row ← sample_rows !! i; row !! j.

(** A stand-in for [atof] on the sample: the length of the text. *)
Definition sample_atof (s : string) : Z := Z.of_nat (String.length s).

(** * Properties *)

(** ** Chains *)

Lemma Node_chain_ind (P : Node → Prop) :
  (∀ b k, P (mkNode b k None)) →
  (∀ b k n, P n → P (mkNode b k (Some n))) →
  ∀ n, P n.
Proof.
  intros Hlast Hcons. fix IH 1. intros [b k [n|]].
  - apply Hcons, IH.
  - apply Hlast.
Qed.

Lemma chain_bids_unfold n : chain_bids n = bid n :: link_bids (next n).
Proof. by destruct n as [b k [n|]]. Qed.

Lemma search_chain_None id n :
  search_chain id n = None ↔ id ∉ bidId <$> chain_bids n.
Proof.
  induction n as [b k|b k n IH] using Node_chain_ind; simpl;
    rewrite not_elem_of_cons; case_decide; subst.
  - intuition congruence.
  - split; [intros _; split; [done | apply not_elem_of_nil] | done].
  - intuition congruence.
  - rewrite IH. intuition congruence.
Qed.

Lemma search_chain_Some id n b :
  search_chain id n = Some b → b ∈ chain_bids n ∧ bidId b = id.
Proof.
  induction n as [c k|c k n IH] using Node_chain_ind; simpl;
    rewrite elem_of_cons; case_decide; intros Hs; simplify_eq; auto.
  destruct (IH Hs); auto.
Qed.

Lemma search_chain_NoDup n b :
  NoDup (bidId <$> chain_bids n) → b ∈ chain_bids n →
  search_chain (bidId b) n = Some b.
Proof.
  induction n as [c k|c k n IH] using Node_chain_ind; simpl;
    rewrite NoDup_cons, elem_of_cons; intros [Hc Hnd] [->|Hb];
    case_decide as Hid; try done.
  - by apply elem_of_nil in Hb.
  - by apply elem_of_nil in Hb.
  - destruct Hc. rewrite Hid. by apply list_elem_of_fmap_2.
  - by apply IH.
Qed.

(** [Search]'s loop returns the first record of the chain whose identifier
    is equal to the one looked for. *)
Lemma search_chain_first_match id n :
  search_chain id n = head (filter (λ c, bidId c = id) (chain_bids n)).
Proof.
  induction n as [b k|b k n IH] using Node_chain_ind; simpl;
    rewrite filter_cons; case_decide; try done.
Qed.

Lemma append_if_absent_key b k n : key (append_if_absent b k n) = key n.
Proof. destruct n as [c kc [n|]]; simpl; by case_decide. Qed.

Lemma append_if_absent_present b k n :
  bidId b ∈ bidId <$> chain_bids n → append_if_absent b k n = n.
Proof.
  induction n as [c kc|c kc n IH] using Node_chain_ind; simpl;
    rewrite elem_of_cons; case_decide; try done.
  - intros [?|[]%elem_of_nil]. congruence.
  - intros [?|Hin]; [congruence|]. by rewrite IH.
Qed.

Lemma append_if_absent_absent b k n :
  bidId b ∉ bidId <$> chain_bids n →
  chain_bids (append_if_absent b k n) = chain_bids n ++ [b].
Proof.
  induction n as [c kc|c kc n IH] using Node_chain_ind; simpl;
    rewrite not_elem_of_cons; case_decide; try done.
  - intros [? _]. congruence.
  - intros [? _]. congruence.
  - intros [_ Hin]. simpl. by rewrite (IH Hin).
Qed.

Lemma remove_after_head id n :
  bid (remove_after id n).1 = bid n ∧ key (remove_after id n).1 = key n.
Proof.
  destruct n as [b k [n|]]; simpl; [|done].
  case_decide; [done|]. by destruct (remove_after id n).
Qed.

Lemma remove_after_absent id n :
  id ∉ bidId <$> link_bids (next n) → remove_after id n = (n, None).
Proof.
  induction n as [b k|b k n IH] using Node_chain_ind; simpl; [done|].
  rewrite (chain_bids_unfold n), fmap_cons, not_elem_of_cons.
  intros [Hne Hin]. case_decide; [done|]. by rewrite IH.
Qed.

Lemma remove_after_sublist id n :
  sublist (chain_bids (remove_after id n).1) (chain_bids n).
Proof.
  induction n as [b k|b k n IH] using Node_chain_ind; simpl; [done|].
  case_decide; simpl.
  - apply sublist_skip. rewrite (chain_bids_unfold n).
    apply sublist_cons. done.
  - destruct (remove_after id n) as [n' r]. simpl in *.
    by apply sublist_skip.
Qed.

Lemma remove_after_Some id b k n :
  remove_after id (mkNode b k (Some n))
  = if decide (bidId (bid n) = id) then (mkNode b k (next n), Some (bid n))
    else let (n', r) := remove_after id n in (mkNode b k (Some n'), r).
Proof. done. Qed.

(** Splicing: the matched node is the first one with the identifier behind
    a head that does not match; the node before it inherits its link. *)
Lemma remove_after_link id hb hk pre m :
  Forall (λ p, bidId p.1 ≠ id) pre → bidId (bid m) = id →
  remove_after id (mkNode hb hk (link pre (Some m)))
  = (mkNode hb hk (link pre (next m)), Some (bid m)).
Proof.
  intros Hpre Hm. revert hb hk.
  induction Hpre as [|[b k] pre Hb _ IH]; intros hb hk;
    cbn [link]; rewrite remove_after_Some.
  - by rewrite decide_True.
  - rewrite decide_False by done. by rewrite IH.
Qed.

Lemma link_bids_link pre rest :
  link_bids (link pre rest) = pre.*1 ++ link_bids rest.
Proof.
  induction pre as [|[b k] pre IH]; [done|]. cbn [link link_bids].
  rewrite chain_bids_unfold, fmap_cons. cbn [bid next fst]. by rewrite IH.
Qed.

(** The records of a chain before and after a node behind the head is
    spliced out: the others keep their places. *)
Lemma remove_after_splice_bids id hb hk pre m :
  Forall (λ p, bidId p.1 ≠ id) pre → bidId (bid m) = id →
  chain_bids (mkNode hb hk (link pre (Some m)))
  = hb :: pre.*1 ++ bid m :: link_bids (next m)
  ∧ chain_bids (remove_after id (mkNode hb hk (link pre (Some m)))).1
    = hb :: pre.*1 ++ link_bids (next m).
Proof.
  intros Hpre Hm. rewrite remove_after_link by done.
  rewrite !chain_bids_unfold. cbn [bid next fst].
  rewrite !link_bids_link. cbn [link_bids]. by rewrite chain_bids_unfold.
Qed.

(** ** Bucket addressing *)

Lemma to_uint_range z : 0 ≤ to_uint z ≤ UINT_MAX.
Proof. unfold to_uint, UINT_MAX. pose proof (Z.mod_pos_bound z (2 ^ 32)). lia. Qed.

Lemma hash_Ok t z :
  0 < tableSize t → hash t z = Ok (to_uint z mod tableSize t).
Proof. intros Hs. unfold hash. rewrite decide_False; [done | lia]. Qed.

Lemma hash_zero t z : tableSize t = 0 → hash t z = Fault DivideByZero.
Proof. intros Hs. unfold hash. by rewrite decide_True. Qed.

Lemma hash_inv t z k :
  hash t z = Ok k → tableSize t ≠ 0 ∧ k = to_uint z mod tableSize t.
Proof. unfold hash. case_decide; intros; simplify_eq. done. Qed.

Lemma at_Ok l i n : l !! Z.to_nat i = Some n → at_ l i = Ok n.
Proof. unfold at_. by intros ->. Qed.

Lemma at_inv l i n : at_ l i = Ok n → l !! Z.to_nat i = Some n.
Proof. unfold at_. destruct (l !! Z.to_nat i); intros; by simplify_eq. Qed.

(** In a table with as many nodes as [tableSize] says, and at least one,
    every identifier addresses a bucket of the vector. *)
Lemma bucket_exists t id :
  length (nodes t) = Z.to_nat (tableSize t) → 0 < tableSize t →
  ∃ n, nodes t !! Z.to_nat (to_uint (atoi id) mod tableSize t) = Some n.
Proof.
  intros Hlen Hs. apply lookup_lt_is_Some_2. rewrite Hlen.
  pose proof (Z.mod_pos_bound (to_uint (atoi id)) (tableSize t) Hs). lia.
Qed.

Lemma Insert_at b t k n :
  hash t (atoi (bidId b)) = Ok k → nodes t !! Z.to_nat k = Some n →
  Insert b t =
  Ok (set_bucket t k (if decide (key n = UINT_MAX) then mkNode b k None
                      else append_if_absent b k n)).
Proof.
  intros Hk Hn. unfold Insert. rewrite Hk. simpl. rewrite (at_Ok _ _ _ Hn).
  simpl. by case_decide.
Qed.

Lemma Remove_at id t k n :
  hash t (atoi id) = Ok k → nodes t !! Z.to_nat k = Some n →
  Remove id t =
  Ok (if decide (bidId (bid n) = id)
      then (set_bucket t k (mkNode (bid n) UINT_MAX None), None)
      else (set_bucket t k (remove_after id n).1, (remove_after id n).2)).
Proof.
  intros Hk Hn. unfold Remove. rewrite Hk. simpl. rewrite (at_Ok _ _ _ Hn).
  simpl. case_decide; [done|]. by destruct (remove_after id n).
Qed.

Lemma Search_at id t k n :
  hash t (atoi id) = Ok k → nodes t !! Z.to_nat k = Some n →
  Search id t = Ok (default Bid_default (search_chain id n)).
Proof.
  intros Hk Hn. unfold Search. rewrite Hk. simpl. by rewrite (at_Ok _ _ _ Hn).
Qed.

(** Each operation reads its bucket through [hash] and [at]. *)
Lemma Insert_inv b t t' :
  Insert b t = Ok t' →
  ∃ k n, hash t (atoi (bidId b)) = Ok k ∧ nodes t !! Z.to_nat k = Some n.
Proof.
  unfold Insert. destruct (hash t (atoi (bidId b))) as [k|]; [|done]. simpl.
  destruct (at_ (nodes t) k) as [n|] eqn:Hn; [|done].
  apply at_inv in Hn. eauto.
Qed.

Lemma Remove_inv id t r :
  Remove id t = Ok r →
  ∃ k n, hash t (atoi id) = Ok k ∧ nodes t !! Z.to_nat k = Some n.
Proof.
  unfold Remove. destruct (hash t (atoi id)) as [k|]; [|done]. simpl.
  destruct (at_ (nodes t) k) as [n|] eqn:Hn; [|done].
  apply at_inv in Hn. eauto.
Qed.

(** From [Hop : Insert b t = Ok t'] (or [Remove id t = Ok r]): name the
    bucket index and the node the operation read, and rewrite [Hop] to the
    table it built from them. *)
Ltac open_Insert Hop k n Hk Hn :=
  destruct (Insert_inv _ _ _ Hop) as (k & n & Hk & Hn);
  rewrite (Insert_at _ _ _ _ Hk Hn) in Hop.

Ltac open_Remove Hop k n Hk Hn :=
  destruct (Remove_inv _ _ _ Hop) as (k & n & Hk & Hn);
  rewrite (Remove_at _ _ _ _ Hk Hn) in Hop.

Lemma set_bucket_id t k n : nodes t !! Z.to_nat k = Some n → set_bucket t k n = t.
Proof.
  intros Hn. unfold set_bucket. rewrite list_insert_id by done. by destruct t.
Qed.

Lemma set_bucket_lookup t k n i m :
  nodes (set_bucket t k n) !! i = Some m →
  (i = Z.to_nat k ∧ m = n) ∨ (i ≠ Z.to_nat k ∧ nodes t !! i = Some m).
Proof.
  simpl. destruct (decide (i = Z.to_nat k)) as [->|Hne].
  - intros Hm. left. split; [done|].
    assert (Z.to_nat k < length (nodes t))%nat as Hlt.
    { apply lookup_lt_Some in Hm. by rewrite length_insert in Hm. }
    rewrite list_lookup_insert_eq in Hm by done. by simplify_eq.
  - rewrite list_lookup_insert_ne by done. auto.
Qed.

(** ** The invariant is established and preserved *)

Lemma bucket_bids_occupied n : key n ≠ UINT_MAX → bucket_bids n = chain_bids n.
Proof. intros. unfold bucket_bids. by rewrite decide_False. Qed.

Lemma bucket_bids_empty n : key n = UINT_MAX → bucket_bids n = [].
Proof. intros. unfold bucket_bids. by rewrite decide_True. Qed.

Lemma bucket_ok_emptied size i b : bucket_ok size i (mkNode b UINT_MAX None).
Proof.
  split; [done| |]; rewrite bucket_bids_empty by done.
  - by intros c ?%elem_of_nil.
  - constructor.
Qed.

Lemma HashTable_sized_ok size :
  0 ≤ size ≤ UINT_MAX → table_ok (HashTable_sized size).
Proof.
  intros Hs. split; simpl; [done | apply length_replicate |].
  intros i n [-> _]%lookup_replicate. apply bucket_ok_emptied.
Qed.

Lemma bucket_ok_Insert size k b n :
  0 ≤ k < size → size ≤ UINT_MAX →
  k = to_uint (atoi (bidId b)) mod size →
  bucket_ok size (Z.to_nat k) n →
  bucket_ok size (Z.to_nat k)
    (if decide (key n = UINT_MAX) then mkNode b k None
     else append_if_absent b k n).
Proof.
  intros Hk Hs Hhome [Hempty Hh Hnd]. case_decide as Hkey.
  - assert (k ≠ UINT_MAX) by lia.
    split; [done| |]; rewrite bucket_bids_occupied by done; simpl.
    + intros c ->%list_elem_of_singleton. rewrite Z2Nat.id; lia.
    + apply NoDup_singleton.
  - rewrite bucket_bids_occupied in Hh, Hnd by done.
    assert (key (append_if_absent b k n) ≠ UINT_MAX)
      by by rewrite append_if_absent_key.
    split; [done| |]; rewrite bucket_bids_occupied by done;
      destruct (decide (bidId b ∈ bidId <$> chain_bids n)) as [Hin|Hout];
      rewrite ?(append_if_absent_present _ _ _ Hin),
              ?(append_if_absent_absent _ _ _ Hout); try done.
    + intros c [?| ->%list_elem_of_singleton]%elem_of_app; [by apply Hh|].
      rewrite Z2Nat.id; lia.
    + rewrite fmap_app. apply NoDup_app. split; [done|]. split.
      * intros id Hid ->%list_elem_of_singleton. done.
      * apply NoDup_singleton.
Qed.

Lemma bucket_ok_remove_after size i id n :
  bucket_ok size i n → bucket_ok size i (remove_after id n).1.
Proof.
  intros [Hempty Hh Hnd].
  destruct (remove_after_head id n) as [Hbid Hkey].
  destruct (decide (key n = UINT_MAX)) as [Hk|Hk].
  - rewrite remove_after_absent; [done|].
    rewrite (Hempty Hk). apply not_elem_of_nil.
  - rewrite bucket_bids_occupied in Hh, Hnd by done.
    pose proof (remove_after_sublist id n) as Hsub.
    split; [congruence| |]; rewrite bucket_bids_occupied by congruence.
    + intros c Hc. apply Hh. by eapply elem_of_sublist.
    + eapply sublist_NoDup; [done | by apply fmap_sublist].
Qed.

Lemma set_bucket_ok t k n :
  table_ok t → bucket_ok (tableSize t) (Z.to_nat k) n →
  table_ok (set_bucket t k n).
Proof.
  intros [Hs Hl Hb] Hn. split; simpl; [done | by rewrite length_insert |].
  intros i m [[-> ->]|[_ Hm]]%set_bucket_lookup; [done | by apply Hb].
Qed.

Lemma Insert_ok b t t' : table_ok t → Insert b t = Ok t' → table_ok t' .
Proof.
  intros Hok Hi. open_Insert Hi k n Hk Hn. simplify_eq.
  destruct (hash_inv _ _ _ Hk) as [Hs0 Hkeq]. pose proof (ok_size _ Hok).
  apply set_bucket_ok; [done|].
  apply bucket_ok_Insert; [|lia|done|by apply (ok_buckets _ Hok)].
  rewrite Hkeq. apply Z.mod_pos_bound. lia.
Qed.

Lemma Remove_ok id t t' r :
  table_ok t → Remove id t = Ok (t', r) → table_ok t'.
Proof.
  intros Hok Hr. open_Remove Hr k n Hk Hn.
  case_decide; simplify_eq; apply set_bucket_ok; try done.
  - apply bucket_ok_emptied.
  - apply bucket_ok_remove_after. by apply (ok_buckets _ Hok).
Qed.

Lemma reachable_ok t : reachable t → table_ok t.
Proof.
  induction 1 as [size Hs|t b t' _ IH Hi|t id t' r _ IH Hr].
  - by apply HashTable_sized_ok.
  - by eapply Insert_ok.
  - by eapply Remove_ok.
Qed.

(** ** Stored records *)

Lemma elem_of_contents t b :
  b ∈ contents t ↔ ∃ i n, nodes t !! i = Some n ∧ b ∈ bucket_bids n.
Proof.
  unfold contents. rewrite list_elem_of_join. split.
  - intros (l & Hb & (n & -> & Hn)%list_elem_of_fmap).
    apply list_elem_of_lookup in Hn as [i Hi]. eauto.
  - intros (i & n & Hi & Hb). exists (bucket_bids n). split; [done|].
    apply list_elem_of_fmap. exists n. split; [done|].
    apply list_elem_of_lookup. eauto.
Qed.

(** A stored record sits in the chain of the bucket its identifier
    addresses, and that bucket is occupied. *)
Lemma contents_home t b :
  table_ok t → b ∈ contents t →
  ∃ k n, hash t (atoi (bidId b)) = Ok k ∧ nodes t !! Z.to_nat k = Some n
         ∧ key n ≠ UINT_MAX ∧ b ∈ chain_bids n
         ∧ NoDup (bidId <$> chain_bids n).
Proof.
  intros Hok (i & n & Hi & Hb)%elem_of_contents.
  destruct (ok_buckets _ Hok _ _ Hi) as [_ Hhome Hnd].
  assert (key n ≠ UINT_MAX) as Hkey.
  { intros Hk. rewrite bucket_bids_empty in Hb by done.
    by apply elem_of_nil in Hb. }
  rewrite bucket_bids_occupied in Hb, Hnd by done.
  assert (0 < tableSize t) as Hs.
  { apply lookup_lt_Some in Hi. rewrite (ok_length _ Hok) in Hi. lia. }
  exists (Z.of_nat i), n. rewrite Nat2Z.id.
  rewrite hash_Ok by done. rewrite Hhome by by rewrite bucket_bids_occupied.
  done.
Qed.

Lemma Search_contents t b :
  table_ok t → b ∈ contents t → Search (bidId b) t = Ok b.
Proof.
  intros Hok Hb.
  destruct (contents_home _ _ Hok Hb) as (k & n & Hk & Hn & _ & Hin & Hnd).
  rewrite (Search_at _ _ _ _ Hk Hn). by rewrite search_chain_NoDup.
Qed.

Lemma Insert_stored t b :
  table_ok t → stored (bidId b) t → Insert b t = Ok t.
Proof.
  intros Hok (c & Hc & Hid).
  destruct (contents_home _ _ Hok Hc) as (k & n & Hk & Hn & Hkey & Hin & _).
  rewrite Hid in Hk. rewrite (Insert_at _ _ _ _ Hk Hn).
  rewrite decide_False by done.
  rewrite append_if_absent_present.
  - by rewrite set_bucket_id.
  - rewrite <- Hid. by apply list_elem_of_fmap_2.
Qed.

Lemma Remove_not_stored t id :
  table_ok t → 0 < tableSize t → ¬ stored id t → Remove id t = Ok (t, None).
Proof.
  intros Hok Hs Hns.
  destruct (bucket_exists t id (ok_length _ Hok) Hs) as [n Hn].
  rewrite (Remove_at _ _ _ _ (hash_Ok _ _ Hs) Hn).
  destruct (decide (key n = UINT_MAX)) as [Hkey|Hkey].
  - pose proof (ok_empty _ _ _ (ok_buckets _ Hok _ _ Hn) Hkey) as Hnext.
    rewrite (remove_after_absent id n)
      by (rewrite Hnext; apply not_elem_of_nil).
    case_decide; simpl; rewrite set_bucket_id; try done.
    rewrite Hn. f_equal. destruct n; simpl in *; congruence.
  - assert (id ∉ bidId <$> chain_bids n) as Hout.
    { intros (c & -> & Hc)%list_elem_of_fmap. apply Hns. exists c.
      split; [|done]. apply elem_of_contents. exists (Z.to_nat
        (to_uint (atoi (bidId c)) mod tableSize t)), n.
      by rewrite bucket_bids_occupied. }
    rewrite chain_bids_unfold, fmap_cons, not_elem_of_cons in Hout.
    destruct Hout as [Hhead Htail].
    rewrite decide_False by done. rewrite remove_after_absent by done.
    simpl. by rewrite set_bucket_id.
Qed.

(** ** The effect of [Insert] and [Remove] on the chains *)

Lemma set_bucket_lookup_eq t k n m :
  nodes t !! Z.to_nat k = Some m →
  nodes (set_bucket t k n) !! Z.to_nat k = Some n.
Proof. intros Hm. simpl. apply list_lookup_insert_eq. by eapply lookup_lt_Some. Qed.

Lemma set_bucket_lookup_ne t k n i :
  i ≠ Z.to_nat k → nodes (set_bucket t k n) !! i = nodes t !! i.
Proof. intros Hne. simpl. by apply list_lookup_insert_ne. Qed.

(** [Insert] leaves every chain as it is or appends its record at the
    end of one. *)
Lemma Insert_bucket_bids b t t' i n n' :
  Insert b t = Ok t' → nodes t !! i = Some n → nodes t' !! i = Some n' →
  bucket_bids n' = bucket_bids n ∨ bucket_bids n' = bucket_bids n ++ [b].
Proof.
  intros Hi Hn Hn'. open_Insert Hi k m Hk Hm. simplify_eq.
  apply set_bucket_lookup in Hn' as [[-> ->]|[_ Hn']]; [|left; congruence].
  simplify_eq. case_decide as Hkey.
  - rewrite (bucket_bids_empty n) by done. unfold bucket_bids. simpl.
    case_decide; auto.
  - assert (key (append_if_absent b k n) ≠ UINT_MAX)
      by by rewrite append_if_absent_key.
    rewrite !bucket_bids_occupied by done.
    destruct (decide (bidId b ∈ bidId <$> chain_bids n)) as [Hin|Hout].
    + left. by rewrite append_if_absent_present.
    + right. by apply append_if_absent_absent.
Qed.

(** [Remove] only deletes from a chain: what stays keeps its order. *)
Lemma Remove_bucket_bids id t t' r i n n' :
  Remove id t = Ok (t', r) → nodes t !! i = Some n → nodes t' !! i = Some n' →
  bucket_bids n' `sublist_of` bucket_bids n.
Proof.
  intros Hr Hn Hn'. open_Remove Hr k m Hk Hm.
  case_decide; simplify_eq;
    (apply set_bucket_lookup in Hn' as [[-> ->]|[_ Hn']];
     [|by replace n' with n by congruence]); simplify_eq.
  - rewrite bucket_bids_empty by done. apply sublist_nil_l.
  - destruct (remove_after_head id n) as [_ Hkey]. unfold bucket_bids.
    rewrite Hkey. case_decide; [done | apply remove_after_sublist].
Qed.

Lemma Insert_tableSize b t t' : Insert b t = Ok t' → tableSize t' = tableSize t.
Proof.
  intros Hi. open_Insert Hi k m Hk Hm. by simplify_eq.
Qed.

(** Inserting a record whose identifier is not stored adds it, and
    nothing else, to the records of the table. *)
Lemma Insert_not_stored t b :
  table_ok t → 0 < tableSize t → ¬ stored (bidId b) t →
  ∃ t', Insert b t = Ok t' ∧ ∀ c, c ∈ contents t' ↔ c ∈ contents t ∨ c = b.
Proof.
  intros Hok Hs Hns.
  destruct (bucket_exists t (bidId b) (ok_length _ Hok) Hs) as [n Hn].
  set (k := to_uint (atoi (bidId b)) mod tableSize t) in *.
  pose proof (Insert_at _ _ _ _ (hash_Ok _ _ Hs) Hn) as Hi. fold k in Hi.
  set (n' := if decide (key n = UINT_MAX) then mkNode b k None
             else append_if_absent b k n) in *.
  assert (bucket_bids n' = bucket_bids n ++ [b]) as Hbids.
  { pose proof (Z.mod_pos_bound (to_uint (atoi (bidId b))) _ Hs).
    pose proof (ok_size _ Hok). subst n'. case_decide as Hkey.
    - rewrite (bucket_bids_empty n) by done.
      rewrite bucket_bids_occupied; [done | simpl; lia].
    - rewrite !bucket_bids_occupied by by rewrite ?append_if_absent_key.
      apply append_if_absent_absent.
      intros (c & Hid & Hc)%list_elem_of_fmap. apply Hns. exists c.
      split; [|done]. apply elem_of_contents. exists (Z.to_nat k), n.
      by rewrite bucket_bids_occupied. }
  eexists. split; [exact Hi|]. intros c. rewrite !elem_of_contents. split.
  - intros (i & m & [[-> ->]|[_ Hm]]%set_bucket_lookup & Hc).
    + rewrite Hbids in Hc.
      apply elem_of_app in Hc as [Hc| ->%list_elem_of_singleton]; eauto.
    + eauto.
  - intros [(i & m & Hm & Hc)| ->].
    + destruct (decide (i = Z.to_nat k)) as [->|Hne].
      * exists (Z.to_nat k), n'. split; [by eapply set_bucket_lookup_eq|].
        rewrite Hbids. apply elem_of_app. left. congruence.
      * exists i, m. by rewrite set_bucket_lookup_ne.
    + exists (Z.to_nat k), n'. split; [by eapply set_bucket_lookup_eq|].
      rewrite Hbids. apply elem_of_app. right. by apply list_elem_of_singleton.
Qed.

Lemma insert_all_cons b bids t :
  insert_all (b :: bids) t = (t' ← Insert b t; insert_all bids t').
Proof. done. Qed.

Lemma insert_all_not_stored bids : ∀ t,
  table_ok t → 0 < tableSize t → NoDup (bidId <$> bids) →
  (∀ b, b ∈ bids → ¬ stored (bidId b) t) →
  ∃ t', insert_all bids t = Ok t' ∧ tableSize t' = tableSize t ∧ table_ok t'
        ∧ ∀ c, c ∈ contents t' ↔ c ∈ contents t ∨ c ∈ bids.
Proof.
  induction bids as [|b bids IH]; intros t Hok Hs Hnd Hns.
  - exists t. split; [done|]. split; [done|]. split; [done|]. intros c.
    rewrite elem_of_nil. tauto.
  - rewrite fmap_cons, NoDup_cons in Hnd. destruct Hnd as [Hb Hnd].
    destruct (Insert_not_stored t b Hok Hs) as (t1 & Hi & Hc1).
    { apply Hns. left. }
    pose proof (Insert_tableSize _ _ _ Hi) as Hs1.
    destruct (IH t1) as (t' & Hrun & Hs' & Hok' & Hc'); try done.
    + by eapply Insert_ok.
    + by rewrite Hs1.
    + intros c Hc (d & Hd & Hid). apply Hc1 in Hd as [Hd| ->].
      * apply (Hns c); [by right | by exists d].
      * apply Hb. rewrite Hid. by apply list_elem_of_fmap_2.
    + exists t'. rewrite insert_all_cons, Hi. split; [done|].
      split; [congruence|]. split; [done|].
      intros c. rewrite Hc', Hc1, elem_of_cons. tauto.
Qed.

(** ** [atoi] and [hash] *)

Lemma to_int_range z : - 2 ^ 31 ≤ to_int z < 2 ^ 31.
Proof. unfold to_int. pose proof (Z.mod_pos_bound (z + 2 ^ 31) (2 ^ 32)). lia. Qed.

Lemma to_uint_nonneg_int z : 0 ≤ z < 2 ^ 31 → to_uint z = z.
Proof. intros Hz. unfold to_uint. apply Z.mod_small. lia. Qed.

Lemma atoi_non_numeric s : non_numeric s = true → atoi s = 0.
Proof.
  unfold non_numeric, atoi, strtol.
  destruct (split_sign (skip_spaces s)) as [minus [|c body]]; simpl.
  - by destruct minus.
  - intros ->%negb_true_iff. by destruct minus.
Qed.

(** ** [PrintAll] *)

Lemma print_chain_bids n : print_chain n = ChainLine <$> chain_bids n.
Proof.
  induction n as [b k|b k n IH] using Node_chain_ind; simpl; [done|].
  by rewrite IH.
Qed.

Lemma print_bucket_lines i n : print_bucket i n = bucket_lines i n.
Proof.
  unfold print_bucket, bucket_lines, bucket_bids. case_decide; [done|].
  rewrite chain_bids_unfold. f_equal.
  destruct (next n) as [n'|]; [apply print_chain_bids | done].
Qed.

Lemma PrintAll_from_lines t l : ∀ j,
  drop j (nodes t) = l →
  PrintAll_from t (Z.of_nat j) (length l)
  = Ok (mjoin (imap (λ i n, bucket_lines (Z.of_nat (j + i)) n) l)).
Proof.
  induction l as [|n l IH]; intros j Hdrop; [done|].
  assert (nodes t !! j = Some n) as Hn.
  { rewrite <- (Nat.add_0_r j), <- lookup_drop. by rewrite Hdrop. }
  assert (drop (S j) (nodes t) = l) as Hrest.
  { rewrite (drop_S _ _ _ Hn) in Hdrop. congruence. }
  cbn [length PrintAll_from]. unfold at_. rewrite Nat2Z.id, Hn. simpl.
  replace (Z.of_nat j + 1) with (Z.of_nat (S j)) by lia.
  rewrite (IH _ Hrest). simpl. rewrite print_bucket_lines, Nat.add_0_r.
  do 3 f_equal. apply imap_ext. intros i m _. simpl. do 2 f_equal. lia.
Qed.

Lemma PrintAll_lines t :
  PrintAll t = Ok (mjoin (imap (λ i n, bucket_lines (Z.of_nat i) n) (nodes t))).
Proof. exact (PrintAll_from_lines t (nodes t) 0%nat eq_refl). Qed.

(** ** Runs *)

Lemma Insert_length b t t' :
  Insert b t = Ok t' → length (nodes t') = length (nodes t).
Proof.
  intros Hi. open_Insert Hi k m Hk Hm. simplify_eq. apply length_insert.
Qed.

Lemma Remove_length id t t' r :
  Remove id t = Ok (t', r) → length (nodes t') = length (nodes t).
Proof.
  intros Hr. open_Remove Hr k m Hk Hm.
  case_decide; simplify_eq; apply length_insert.
Qed.

Lemma lookup_same_length (l l' : list Node) i n' :
  length l' = length l → l' !! i = Some n' → ∃ n, l !! i = Some n.
Proof.
  intros Hlen Hn'%lookup_lt_Some. apply lookup_lt_is_Some_2. by rewrite <- Hlen.
Qed.

Lemma step_bucket_bids o t t' i n' :
  step o t = Ok t' → nodes t' !! i = Some n' →
  ∃ n, nodes t !! i = Some n
       ∧ bucket_bids n' `sublist_of` bucket_bids n ++ inserted [o].
Proof.
  destruct o as [b|id]; simpl.
  - intros Hi Hn'.
    destruct (lookup_same_length _ _ _ _ (Insert_length _ _ _ Hi) Hn') as [n Hn].
    exists n. split; [done|].
    destruct (Insert_bucket_bids _ _ _ _ _ _ Hi Hn Hn') as [-> | ->];
      [by apply sublist_inserts_r | done].
  - destruct (Remove id t) as [[t1 r]|] eqn:Hr; [|done]. simpl.
    intros ? Hn'. simplify_eq.
    destruct (lookup_same_length _ _ _ _ (Remove_length _ _ _ _ Hr) Hn') as [n Hn].
    exists n. split; [done|]. rewrite app_nil_r.
    by eapply Remove_bucket_bids.
Qed.

Lemma inserted_cons o ops : inserted (o :: ops) = inserted [o] ++ inserted ops.
Proof. by destruct o. Qed.

Lemma run_bucket_bids ops : ∀ t t' i n',
  run ops t = Ok t' → nodes t' !! i = Some n' →
  ∃ n, nodes t !! i = Some n
       ∧ bucket_bids n' `sublist_of` bucket_bids n ++ inserted ops.
Proof.
  induction ops as [|o ops IH]; intros t t' i n' Hrun Hn'; simpl in Hrun.
  - simplify_eq. exists n'. split; [done|]. by rewrite app_nil_r.
  - destruct (step o t) as [t1|] eqn:Hstep; [|done]. simpl in Hrun.
    destruct (IH _ _ _ _ Hrun Hn') as (n1 & Hn1 & Hsub1).
    destruct (step_bucket_bids _ _ _ _ _ Hstep Hn1) as (n & Hn & Hsub).
    exists n. split; [done|]. rewrite inserted_cons, (assoc_L (++)).
    etrans; [exact Hsub1|]. by apply sublist_app.
Qed.

Lemma run_reachable ops : ∀ t t',
  reachable t → run ops t = Ok t' → reachable t'.
Proof.
  induction ops as [|[b|id] ops IH]; intros t t' Ht Hrun; simpl in Hrun.
  - by simplify_eq.
  - destruct (Insert b t) as [t1|] eqn:Hi; [|done].
    eapply IH; [|exact Hrun]. by eapply reachable_Insert.
  - destruct (Remove id t) as [[t1 r]|] eqn:Hr; [|done].
    eapply IH; [|exact Hrun]. by eapply reachable_Remove.
Qed.

(** ** The embedding on concrete inputs *)

Example atoi_examples :
  atoi "98223" = 98223 ∧ atoi "  42" = 42 ∧ atoi "+7" = 7 ∧ atoi "-1" = -1
  ∧ atoi "12abc" = 12 ∧ atoi "abc" = 0 ∧ atoi "" = 0 ∧ atoi "-" = 0
  ∧ atoi "2147483648" = -2147483648.
Proof. repeat split; reflexivity. Qed.

Example default_table_bucket :
  hash HashTable_default (atoi "98223") = Ok 131.
Proof. reflexivity. Qed.

Example scenario_PrintAll :
  PrintAll scenario_table
  = Ok [KeyLine 0 bid_0; ChainLine bid_5; ChainLine bid_10; KeyLine 1 bid_1].
Proof. reflexivity. Qed.

Example scenario_Remove_5 :
  Remove "5" scenario_table
  = Ok (mkHashTable
          [mkNode bid_0 0 (Some (mkNode bid_10 0 None)); mkNode bid_1 1 None;
           Node_default; Node_default; Node_default] 5,
        Some bid_5).
Proof. reflexivity. Qed.

Example scenario_Remove_0 :
  Remove "0" scenario_table
  = Ok (mkHashTable
          [mkNode bid_0 UINT_MAX None; mkNode bid_1 1 None;
           Node_default; Node_default; Node_default] 5,
        None).
Proof. reflexivity. Qed.

Lemma HashTable_default_reachable : reachable HashTable_default.
Proof. apply reachable_new. unfold DEFAULT_SIZE, UINT_MAX. lia. Qed.

(** ** The claims *)

(** C1. Records with pairwise distinct identifiers, inserted one after the
    other into a newly constructed table with at least one bucket, are all
    inserted, and [Search] on each of the identifiers returns exactly the
    record inserted under it; for any identifier [Search] returns the
    first record with an equal identifier in the chain of the bucket the
    identifier addresses. *)
Theorem Search_after_inserts size bids :
  1 ≤ size ≤ UINT_MAX → NoDup (bidId <$> bids) →
  ∃ t, insert_all bids (HashTable_sized size) = Ok t
       ∧ (∀ b, b ∈ bids → Search (bidId b) t = Ok b)
       ∧ ∀ id, ∃ n,
           nodes t !! Z.to_nat (to_uint (atoi id) mod tableSize t) = Some n
           ∧ Search id t
             = Ok (default Bid_default
                     (head (filter (λ c, bidId c = id) (chain_bids n)))).
Proof.
  intros Hs Hnd.
  assert (contents (HashTable_sized size) = []) as Hnew.
  { unfold contents. simpl. induction (Z.to_nat size); [done|]. simpl. done. }
  destruct (insert_all_not_stored bids (HashTable_sized size))
    as (t & Hrun & Hsize & Hok & Hc); try done.
  - apply HashTable_sized_ok. lia.
  - simpl. lia.
  - intros b _ (c & Hin & _). rewrite Hnew in Hin. by apply elem_of_nil in Hin.
  - exists t. split; [done|]. split.
    + intros b Hb. apply Search_contents; [done|]. apply Hc. by right.
    + intros id. simpl in Hsize.
      destruct (bucket_exists t id (ok_length _ Hok)) as [n Hn]; [lia|].
      exists n. split; [done|].
      assert (0 < tableSize t) as Hpos by lia.
      rewrite (Search_at _ _ _ _ (hash_Ok t (atoi id) Hpos) Hn).
      by rewrite search_chain_first_match.
Qed.

Lemma Search_after_inserts_witness :
  1 ≤ 5 ≤ UINT_MAX ∧ NoDup (bidId <$> [bid_0; bid_5; bid_10; bid_1]) ∧
  ∃ t, insert_all [bid_0; bid_5; bid_10; bid_1] (HashTable_sized 5) = Ok t
       ∧ (∀ b, b ∈ [bid_0; bid_5; bid_10; bid_1] → Search (bidId b) t = Ok b)
       ∧ ∀ id, ∃ n,
           nodes t !! Z.to_nat (to_uint (atoi id) mod tableSize t) = Some n
           ∧ Search id t
             = Ok (default Bid_default
                     (head (filter (λ c, bidId c = id) (chain_bids n)))).
Proof.
  assert (1 ≤ 5 ≤ UINT_MAX) as Hs by (unfold UINT_MAX; lia).
  assert (NoDup (bidId <$> [bid_0; bid_5; bid_10; bid_1])) as Hnd
    by (apply (bool_decide_unpack _); vm_compute; exact I).
  split; [exact Hs|]. split; [exact Hnd|].
  exact (Search_after_inserts 5 [bid_0; bid_5; bid_10; bid_1] Hs Hnd).
Defined.

Lemma scenario_eq : scenario = Ok scenario_table.
Proof. reflexivity. Qed.

Lemma scenario_reachable : reachable scenario_table.
Proof.
  apply (run_reachable (OpInsert <$> [bid_0; bid_5; bid_10; bid_1])
           (HashTable_sized 5)); [|exact scenario_eq].
  apply reachable_new. unfold UINT_MAX. lia.
Qed.

(** C2. In a reachable table, inserting a record whose identifier is
    already stored changes nothing: the table is the same afterwards, and
    [Search] still returns the record stored first. *)
Theorem Insert_duplicate_noop t b c :
  reachable t → c ∈ contents t → bidId c = bidId b →
  Insert b t = Ok t ∧ Search (bidId b) t = Ok c.
Proof.
  intros Ht%reachable_ok Hc Hid. split.
  - apply Insert_stored; [done|]. by exists c.
  - rewrite <- Hid. by apply Search_contents.
Qed.

Lemma Insert_duplicate_noop_witness :
  reachable scenario_table ∧ bid_0 ∈ contents scenario_table
  ∧ bidId bid_0 = bidId bid_0_again
  ∧ Insert bid_0_again scenario_table = Ok scenario_table
  ∧ Search (bidId bid_0_again) scenario_table = Ok bid_0.
Proof.
  assert (bid_0 ∈ contents scenario_table) as Hin by (vm_compute; left).
  split; [exact scenario_reachable|]. split; [exact Hin|].
  split; [reflexivity|].
  exact (Insert_duplicate_noop scenario_table bid_0_again bid_0
           scenario_reachable Hin eq_refl).
Defined.

(** Removing the head of a chain leaves its bid in the slot, and [Search]
    does not look at the sentinel: the removed record is still found. *)
Lemma Remove_head_then_Search t id k n :
  hash t (atoi id) = Ok k → nodes t !! Z.to_nat k = Some n →
  bidId (bid n) = id →
  ∃ t', Remove id t = Ok (t', None) ∧ Search id t' = Ok (bid n).
Proof.
  intros Hk Hn Hid. eexists. rewrite (Remove_at _ _ _ _ Hk Hn).
  rewrite decide_True by done. split; [done|].
  erewrite Search_at; [|exact Hk|by eapply set_bucket_lookup_eq].
  simpl. by rewrite decide_True.
Qed.

Lemma remove_after_gone id n :
  NoDup (bidId <$> link_bids (next n)) →
  id ∉ bidId <$> link_bids (next (remove_after id n).1).
Proof.
  induction n as [b k|b k n IH] using Node_chain_ind;
    [intros _; apply not_elem_of_nil|].
  rewrite remove_after_Some. cbn [next link_bids].
  rewrite (chain_bids_unfold n), fmap_cons, NoDup_cons. intros [Hhd Hnd].
  case_decide as Hid; [by subst|].
  destruct (remove_after id n) as [n' r] eqn:Hrem. cbn [fst next link_bids].
  rewrite (chain_bids_unfold n'), fmap_cons, not_elem_of_cons.
  pose proof (remove_after_head id n) as [Hbid _]. rewrite Hrem in Hbid.
  simpl in Hbid. split; [congruence | by apply IH].
Qed.

(** Where the removed record is not the head of its chain, [Search] no
    longer finds the identifier. *)
Lemma Remove_chained_then_Search t id k n :
  reachable t → hash t (atoi id) = Ok k → nodes t !! Z.to_nat k = Some n →
  bidId (bid n) ≠ id →
  ∃ t' r, Remove id t = Ok (t', r) ∧ Search id t' = Ok Bid_default.
Proof.
  intros Hok%reachable_ok Hk Hn Hid. do 2 eexists.
  rewrite (Remove_at _ _ _ _ Hk Hn). rewrite decide_False by done.
  split; [done|].
  erewrite Search_at; [|exact Hk|by eapply set_bucket_lookup_eq].
  destruct (remove_after_head id n) as [Hbid Hkey].
  assert (search_chain id (remove_after id n).1 = None) as ->; [|done].
  apply search_chain_None.
  rewrite chain_bids_unfold, fmap_cons, not_elem_of_cons, Hbid.
  split; [done|]. apply remove_after_gone.
  destruct (ok_buckets _ Hok _ _ Hn) as [Hempty _ Hnd].
  destruct (decide (key n = UINT_MAX)) as [Hmax|Hocc].
  - rewrite (Hempty Hmax). constructor.
  - rewrite bucket_bids_occupied, chain_bids_unfold, fmap_cons in Hnd by done.
    by apply NoDup_cons in Hnd as [_ Hnd].
Qed.

(** C3, at the failing input: after [Insert] of "0" into a table of size 5
    and [Remove("0")], [Search("0")] returns the removed record, which is
    not the default record. *)
Theorem Search_finds_removed_head :
  (t ← Insert bid_0 (HashTable_sized 5);
   r ← Remove "0" t;
   Search "0" r.1) = Ok bid_0
  ∧ bid_0 ≠ Bid_default.
Proof. split; [reflexivity | discriminate]. Qed.

(** C4. Let [n] be the head of bucket [k].  [Remove] of an identifier
    that [n] carries completes and releases nothing; afterwards the slot
    of bucket [k] holds the head's own bid with the empty sentinel as key
    and a null link (the second node is not promoted), every other
    bucket is as before, and no other identifier of the bucket is found
    by [Search] any more: the continuation of the chain is lost.
    [Remove] of an identifier first matched by a node [m] behind the
    head completes and releases [m] only; afterwards the chain of bucket
    [k] is the old one with the node before [m] linked to [m]'s
    successor, and every other bucket is as before. *)
Theorem Remove_matched_node t k n :
  nodes t !! Z.to_nat k = Some n →
  (∀ id, hash t (atoi id) = Ok k → bidId (bid n) = id →
     ∃ t', Remove id t = Ok (t', None)
           ∧ tableSize t' = tableSize t
           ∧ length (nodes t') = length (nodes t)
           ∧ nodes t' !! Z.to_nat k = Some (mkNode (bid n) UINT_MAX None)
           ∧ (∀ i, i ≠ Z.to_nat k → nodes t' !! i = nodes t !! i)
           ∧ (∀ id', id' ≠ id → hash t (atoi id') = Ok k →
                     Search id' t' = Ok Bid_default))
  ∧ (∀ id pre m,
       hash t (atoi id) = Ok k → bidId (bid n) ≠ id →
       next n = link pre (Some m) →
       Forall (λ p, bidId p.1 ≠ id) pre → bidId (bid m) = id →
       ∃ t', Remove id t = Ok (t', Some (bid m))
             ∧ tableSize t' = tableSize t
             ∧ length (nodes t') = length (nodes t)
             ∧ nodes t' !! Z.to_nat k
               = Some (mkNode (bid n) (key n) (link pre (next m)))
             ∧ (∀ i, i ≠ Z.to_nat k → nodes t' !! i = nodes t !! i)).
Proof.
  intros Hn. split.
  - intros id Hk Hid. rewrite (Remove_at _ _ _ _ Hk Hn).
    rewrite decide_True by done.
    pose proof (set_bucket_lookup_eq t k (mkNode (bid n) UINT_MAX None) n Hn)
      as Hn'.
    eexists. split; [done|]. split; [done|].
    split; [apply length_insert|]. split; [exact Hn'|].
    split; [intros i Hi; by apply set_bucket_lookup_ne|].
    intros id' Hne Hk'.
    rewrite (Search_at id' _ k (mkNode (bid n) UINT_MAX None)); [|done|done].
    simpl. rewrite decide_False; [done | congruence].
  - intros id pre m Hk Hhead Hnext Hpre Hm.
    rewrite (Remove_at _ _ _ _ Hk Hn). rewrite decide_False by done.
    destruct n as [hb hk nx]. simpl in Hnext, Hn. subst nx.
    rewrite remove_after_link by done. cbn [fst snd bid key].
    eexists. split; [done|]. split; [done|].
    split; [apply length_insert|].
    split; [by eapply set_bucket_lookup_eq|].
    intros i Hi. by apply set_bucket_lookup_ne.
Qed.

Lemma Remove_matched_node_witness :
  nodes scenario_table !! Z.to_nat 0 = Some chain_0_5_10
  ∧ (∃ t', Remove "0" scenario_table = Ok (t', None)
           ∧ tableSize t' = tableSize scenario_table
           ∧ length (nodes t') = length (nodes scenario_table)
           ∧ nodes t' !! Z.to_nat 0 = Some (mkNode bid_0 UINT_MAX None)
           ∧ (∀ i, i ≠ Z.to_nat 0 →
                   nodes t' !! i = nodes scenario_table !! i)
           ∧ (∀ id', id' ≠ "0" → hash scenario_table (atoi id') = Ok 0 →
                     Search id' t' = Ok Bid_default))
  ∧ (∃ t', Remove "10" scenario_table = Ok (t', Some bid_10)
           ∧ tableSize t' = tableSize scenario_table
           ∧ length (nodes t') = length (nodes scenario_table)
           ∧ nodes t' !! Z.to_nat 0
             = Some (mkNode bid_0 0 (Some (mkNode bid_5 0 None)))
           ∧ (∀ i, i ≠ Z.to_nat 0 →
                   nodes t' !! i = nodes scenario_table !! i)).
Proof.
  assert (bidId (bid chain_0_5_10) ≠ "10") as Hhead by discriminate.
  assert (Forall (λ p : Bid * Z, bidId p.1 ≠ "10") [(bid_5, 0)]) as Hpre
    by (constructor; [discriminate | constructor]).
  split; [reflexivity|].
  destruct (Remove_matched_node scenario_table 0 chain_0_5_10 eq_refl)
    as [Hfirst Hbehind].
  split.
  - exact (Hfirst "0" eq_refl eq_refl).
  - exact (Hbehind "10" [(bid_5, 0)] (mkNode bid_10 0 None)
             eq_refl Hhead eq_refl Hpre eq_refl).
Defined.

(** C5, as stated, fails on the reachable table of no bucket: nothing is
    stored in it, and [Remove] of any identifier divides by zero in
    [hash] instead of leaving the table as it is. *)
Lemma Remove_missing_zero_buckets :
  reachable (HashTable_sized 0)
  ∧ ¬ stored "0" (HashTable_sized 0)
  ∧ Remove "0" (HashTable_sized 0) = Fault DivideByZero
  ∧ Remove "0" (HashTable_sized 0) ≠ Ok (HashTable_sized 0, None).
Proof.
  split; [apply reachable_new; unfold UINT_MAX; lia|].
  split; [|split; [done|done]].
  intros (b & Hb & _). by apply elem_of_nil in Hb.
Qed.

(** C5, amended. In a reachable table with at least one bucket, [Remove] of an
    identifier that is not stored completes and leaves the table as it
    was, releasing nothing. *)
Theorem Remove_missing_noop t id :
  reachable t → 0 < tableSize t → ¬ stored id t → Remove id t = Ok (t, None).
Proof. intros Ht%reachable_ok. by apply Remove_not_stored. Qed.

Lemma scenario_not_stored_7 : ¬ stored "7" scenario_table.
Proof.
  intros (b & Hb & Hid). unfold contents in Hb. simpl in Hb.
  repeat (apply elem_of_cons in Hb as [->|Hb]; [discriminate|]).
  by apply elem_of_nil in Hb.
Qed.

Lemma Remove_missing_noop_witness :
  reachable scenario_table ∧ 0 < tableSize scenario_table
  ∧ ¬ stored "7" scenario_table
  ∧ Remove "7" scenario_table = Ok (scenario_table, None).
Proof.
  assert (0 < tableSize scenario_table) as Hs by (simpl; lia).
  split; [exact scenario_reachable|]. split; [exact Hs|].
  split; [exact scenario_not_stored_7|].
  exact (Remove_missing_noop scenario_table "7" scenario_reachable Hs
           scenario_not_stored_7).
Defined.

(** C6, as stated, fails on a table constructed with bucket count 0:
    [Insert], [Search] and [Remove] divide by zero in [hash]. *)
Lemma zero_buckets_fault :
  ¬ completes (Insert bid_0 (HashTable_sized 0))
  ∧ Insert bid_0 (HashTable_sized 0) = Fault DivideByZero
  ∧ Search "0" (HashTable_sized 0) = Fault DivideByZero
  ∧ Remove "0" (HashTable_sized 0) = Fault DivideByZero.
Proof. split; [by intros [t Ht] | done]. Qed.

(** C6, amended. In a reachable table [PrintAll] always completes; with at
    least one bucket [Insert], [Search] and [Remove] complete for every
    record and identifier; with no bucket [PrintAll] writes nothing and
    the other three fault with a division by zero. *)
Theorem operations_complete t b id :
  reachable t →
  completes (PrintAll t)
  ∧ (0 < tableSize t →
     completes (Insert b t) ∧ completes (Search id t)
     ∧ completes (Remove id t))
  ∧ (tableSize t = 0 →
     PrintAll t = Ok []
     ∧ Insert b t = Fault DivideByZero ∧ Search id t = Fault DivideByZero
     ∧ Remove id t = Fault DivideByZero).
Proof.
  intros Hok%reachable_ok. split; [|split].
  - eexists. apply PrintAll_lines.
  - intros Hs.
    destruct (bucket_exists t (bidId b) (ok_length _ Hok) Hs) as [nb Hnb].
    destruct (bucket_exists t id (ok_length _ Hok) Hs) as [n Hn].
    split; [|split]; eexists.
    + by apply (Insert_at _ _ _ _ (hash_Ok _ _ Hs) Hnb).
    + by apply (Search_at _ _ _ _ (hash_Ok _ _ Hs) Hn).
    + by apply (Remove_at _ _ _ _ (hash_Ok _ _ Hs) Hn).
  - intros Hz. split.
    + pose proof (ok_length _ Hok) as Hlen. rewrite Hz in Hlen.
      unfold PrintAll. by rewrite Hlen.
    + unfold Insert, Search, Remove. by rewrite !hash_zero.
Qed.

Lemma operations_complete_witness :
  reachable scenario_table
  ∧ completes (PrintAll scenario_table)
  ∧ (0 < tableSize scenario_table →
     completes (Insert bid_0_again scenario_table)
     ∧ completes (Search "12" scenario_table)
     ∧ completes (Remove "12" scenario_table))
  ∧ (tableSize scenario_table = 0 →
     PrintAll scenario_table = Ok []
     ∧ Insert bid_0_again scenario_table = Fault DivideByZero
     ∧ Search "12" scenario_table = Fault DivideByZero
     ∧ Remove "12" scenario_table = Fault DivideByZero).
Proof.
  split; [exact scenario_reachable|].
  exact (operations_complete scenario_table bid_0_again "12"
           scenario_reachable).
Defined.

(** C7, as stated, fails for an identifier that parses to a negative
    number: "-1" parses to -1, which [hash] converts to 4294967295, and on
    a table of size 5 the bucket is 0, neither [-1 mod 5 = 4] nor the C
    remainder [-1]. *)
Lemma negative_identifier_bucket :
  atoi "-1" = -1
  ∧ hash (HashTable_sized 5) (atoi "-1") = Ok 0
  ∧ hash (HashTable_sized 5) (atoi "-1")
    ≠ Ok (atoi "-1" mod tableSize (HashTable_sized 5))
  ∧ hash (HashTable_sized 5) (atoi "-1")
    ≠ Ok (Z.rem (atoi "-1") (tableSize (HashTable_sized 5))).
Proof. repeat split; done. Qed.

(** The parse stops at the first character that is not a digit: text
    that starts with a number is hashed by that number. *)
Lemma numeric_prefix_bucket :
  atoi "12abc" = 12 ∧ hash (HashTable_sized 5) (atoi "12abc") = Ok 2.
Proof. done. Qed.

(** C7, amended. In a reachable table with at least one bucket the bucket
    index of an identifier is its parsed integer, converted to
    [unsigned int], modulo [tableSize]; this is the parsed integer modulo
    [tableSize] when that integer is not negative; text without a leading
    number parses to 0 and has index 0; and [Insert], [Search] and
    [Remove] all work on the node at this index. *)
Theorem bucket_index t id :
  reachable t → 0 < tableSize t →
  let k := to_uint (atoi id) mod tableSize t in
  hash t (atoi id) = Ok k
  ∧ 0 ≤ k < tableSize t
  ∧ (0 ≤ atoi id → k = atoi id mod tableSize t)
  ∧ (non_numeric id = true → atoi id = 0 ∧ k = 0)
  ∧ ∃ n, nodes t !! Z.to_nat k = Some n
      ∧ (∀ b, bidId b = id →
           Insert b t =
           Ok (set_bucket t k
                 (if decide (key n = UINT_MAX) then mkNode b k None
                  else append_if_absent b k n)))
      ∧ Search id t = Ok (default Bid_default (search_chain id n))
      ∧ Remove id t =
        Ok (if decide (bidId (bid n) = id)
            then (set_bucket t k (mkNode (bid n) UINT_MAX None), None)
            else (set_bucket t k (remove_after id n).1,
                  (remove_after id n).2)).
Proof.
  intros Hok%reachable_ok Hs k.
  pose proof (hash_Ok t (atoi id) Hs) as Hk. fold k in Hk.
  split; [done|]. split; [by apply Z.mod_pos_bound|]. split; [|split].
  - intros Hpos. unfold k. rewrite to_uint_nonneg_int; [done|].
    pose proof (to_int_range (strtol id)). unfold atoi in *. lia.
  - intros Hnn. split; [by apply atoi_non_numeric|].
    unfold k. rewrite (atoi_non_numeric _ Hnn). apply Z.mod_0_l. lia.
  - destruct (bucket_exists t id (ok_length _ Hok) Hs) as [n Hn].
    fold k in Hn. exists n. split; [done|]. split; [|split].
    + intros b <-. by apply (Insert_at _ _ _ _ Hk Hn).
    + by apply (Search_at _ _ _ _ Hk Hn).
    + by apply (Remove_at _ _ _ _ Hk Hn).
Qed.

Lemma bucket_index_witness :
  reachable scenario_table ∧ 0 < tableSize scenario_table ∧
  let k := to_uint (atoi "10") mod tableSize scenario_table in
  hash scenario_table (atoi "10") = Ok k
  ∧ 0 ≤ k < tableSize scenario_table
  ∧ (0 ≤ atoi "10" → k = atoi "10" mod tableSize scenario_table)
  ∧ (non_numeric "10" = true → atoi "10" = 0 ∧ k = 0)
  ∧ ∃ n, nodes scenario_table !! Z.to_nat k = Some n
      ∧ (∀ b, bidId b = "10" →
           Insert b scenario_table =
           Ok (set_bucket scenario_table k
                 (if decide (key n = UINT_MAX) then mkNode b k None
                  else append_if_absent b k n)))
      ∧ Search "10" scenario_table
        = Ok (default Bid_default (search_chain "10" n))
      ∧ Remove "10" scenario_table =
        Ok (if decide (bidId (bid n) = "10")
            then (set_bucket scenario_table k
                    (mkNode (bid n) UINT_MAX None), None)
            else (set_bucket scenario_table k (remove_after "10" n).1,
                  (remove_after "10" n).2)).
Proof.
  assert (0 < tableSize scenario_table) as Hs by (simpl; lia).
  split; [exact scenario_reachable|]. split; [exact Hs|].
  exact (bucket_index scenario_table "10" scenario_reachable Hs).
Defined.

(** C8, at the failing input: the four inserts build the table with the
    chain "0", "5", "10" in bucket 0 and [Search("5")] returns its record;
    after [Remove("0")], [Search("5")] returns the default record and
    [PrintAll] writes the record "1" only. *)
Theorem scenario_Remove_head_loses_chain :
  scenario = Ok scenario_table
  ∧ Search "5" scenario_table = Ok bid_5
  ∧ (r ← Remove "0" scenario_table; Search "5" r.1) = Ok Bid_default
  ∧ (r ← Remove "0" scenario_table; PrintAll r.1) = Ok [KeyLine 1 bid_1].
Proof. repeat split; reflexivity. Qed.

(** C9. After any run of [Insert] and [Remove] calls on a new table, the
    records of each bucket, from the head along the chain, are a
    subsequence of the records passed to [Insert], in call order; a
    further [Insert] leaves each chain as it is or appends its record at
    the end; a further [Remove] only deletes from a chain, the rest
    keeping its order, and where it splices out a node behind the head the
    records before and after that node stay as they were; and [PrintAll],
    which returns no table, writes the buckets by ascending index, for
    each occupied bucket the head as a key line followed by the chained
    records in chain order. *)
Theorem chains_keep_insertion_order size ops t :
  run ops (HashTable_sized size) = Ok t →
  (∀ i n, nodes t !! i = Some n → bucket_bids n `sublist_of` inserted ops)
  ∧ (∀ b t' i n n',
       Insert b t = Ok t' → nodes t !! i = Some n → nodes t' !! i = Some n' →
       bucket_bids n' = bucket_bids n ∨ bucket_bids n' = bucket_bids n ++ [b])
  ∧ (∀ id t' r i n n',
       Remove id t = Ok (t', r) → nodes t !! i = Some n →
       nodes t' !! i = Some n' →
       bucket_bids n' `sublist_of` bucket_bids n)
  ∧ (∀ id k n pre m,
       hash t (atoi id) = Ok k → nodes t !! Z.to_nat k = Some n →
       key n ≠ UINT_MAX → bidId (bid n) ≠ id →
       next n = link pre (Some m) →
       Forall (λ p, bidId p.1 ≠ id) pre → bidId (bid m) = id →
       ∃ t' n', Remove id t = Ok (t', Some (bid m))
                ∧ nodes t' !! Z.to_nat k = Some n'
                ∧ bucket_bids n = bid n :: pre.*1 ++ bid m :: link_bids (next m)
                ∧ bucket_bids n' = bid n :: pre.*1 ++ link_bids (next m))
  ∧ PrintAll t
    = Ok (mjoin (imap (λ i n, bucket_lines (Z.of_nat i) n) (nodes t))).
Proof.
  intros Hrun. split; [|split; [|split; [|split]]].
  - intros i n' Hn'.
    destruct (run_bucket_bids _ _ _ _ _ Hrun Hn') as (n & Hn & Hsub).
    simpl in Hn. apply lookup_replicate in Hn as [-> _].
    by rewrite (bucket_bids_empty Node_default) in Hsub.
  - intros b t' i n n'. apply Insert_bucket_bids.
  - intros id t' r i n n'. apply Remove_bucket_bids.
  - intros id k [hb hk nx] pre m Hk Hn Hkey Hhead Hnext Hpre Hm.
    simpl in Hnext, Hhead, Hkey. subst nx.
    destruct (remove_after_splice_bids id hb hk pre m Hpre Hm) as [Hold Hnew].
    rewrite (Remove_at _ _ _ _ Hk Hn). cbn [bid].
    rewrite decide_False by done. rewrite remove_after_link in * by done.
    do 2 eexists. split; [done|].
    split; [by eapply set_bucket_lookup_eq|].
    by rewrite !bucket_bids_occupied.
  - apply PrintAll_lines.
Qed.

Lemma chains_keep_insertion_order_witness :
  run (OpInsert <$> [bid_0; bid_5; bid_10; bid_1]) (HashTable_sized 5)
  = Ok scenario_table
  ∧ (∀ i n, nodes scenario_table !! i = Some n →
       bucket_bids n
       `sublist_of` inserted (OpInsert <$> [bid_0; bid_5; bid_10; bid_1]))
  ∧ (∀ b t' i n n',
       Insert b scenario_table = Ok t' →
       nodes scenario_table !! i = Some n → nodes t' !! i = Some n' →
       bucket_bids n' = bucket_bids n ∨ bucket_bids n' = bucket_bids n ++ [b])
  ∧ (∀ id t' r i n n',
       Remove id scenario_table = Ok (t', r) →
       nodes scenario_table !! i = Some n → nodes t' !! i = Some n' →
       bucket_bids n' `sublist_of` bucket_bids n)
  ∧ (∀ id k n pre m,
       hash scenario_table (atoi id) = Ok k →
       nodes scenario_table !! Z.to_nat k = Some n →
       key n ≠ UINT_MAX → bidId (bid n) ≠ id →
       next n = link pre (Some m) →
       Forall (λ p, bidId p.1 ≠ id) pre → bidId (bid m) = id →
       ∃ t' n', Remove id scenario_table = Ok (t', Some (bid m))
                ∧ nodes t' !! Z.to_nat k = Some n'
                ∧ bucket_bids n = bid n :: pre.*1 ++ bid m :: link_bids (next m)
                ∧ bucket_bids n' = bid n :: pre.*1 ++ link_bids (next m))
  ∧ PrintAll scenario_table
    = Ok (mjoin (imap (λ i n, bucket_lines (Z.of_nat i) n)
                   (nodes scenario_table))).
Proof.
  split; [reflexivity|].
  exact (chains_keep_insertion_order 5
           (OpInsert <$> [bid_0; bid_5; bid_10; bid_1]) scenario_table
           eq_refl).
Defined.

(** C10. In every table reachable from a constructor by [Insert] and
    [Remove], a head slot whose key is the empty sentinel [UINT_MAX] has a
    null [next]. *)
Theorem empty_head_has_no_chain t i n :
  reachable t → nodes t !! i = Some n → key n = UINT_MAX → next n = None.
Proof.
  intros Hok%reachable_ok Hn. exact (ok_empty _ _ _ (ok_buckets _ Hok _ _ Hn)).
Qed.

Lemma empty_head_has_no_chain_witness :
  reachable scenario_table ∧ nodes scenario_table !! 2%nat = Some Node_default
  ∧ key Node_default = UINT_MAX ∧ next Node_default = None.
Proof.
  split; [exact scenario_reachable|]. split; [reflexivity|].
  split; [reflexivity|].
  exact (empty_head_has_no_chain scenario_table 2 Node_default
           scenario_reachable eq_refl eq_refl).
Defined.

(** * Further properties of the table *)

(** ** Records of a table after one bucket is replaced *)

Lemma elem_of_contents_set_bucket t k n n' c :
  nodes t !! Z.to_nat k = Some n →
  c ∈ contents (set_bucket t k n') ↔
  c ∈ bucket_bids n'
  ∨ ∃ i m, i ≠ Z.to_nat k ∧ nodes t !! i = Some m ∧ c ∈ bucket_bids m.
Proof.
  intros Hn. rewrite elem_of_contents. split.
  - intros (i & m & [[-> ->]|[Hne Hm]]%set_bucket_lookup & Hc); [by left|].
    right. eauto.
  - intros [Hc|(i & m & Hne & Hm & Hc)].
    + exists (Z.to_nat k), n'. split; [by eapply set_bucket_lookup_eq | done].
    + exists i, m. by rewrite set_bucket_lookup_ne.
Qed.

Lemma contents_split t k n :
  nodes t !! Z.to_nat k = Some n →
  contents t
  = mjoin (bucket_bids <$> take (Z.to_nat k) (nodes t)) ++ bucket_bids n
    ++ mjoin (bucket_bids <$> drop (S (Z.to_nat k)) (nodes t)).
Proof.
  intros Hn. unfold contents.
  rewrite <- (take_drop_middle _ _ _ Hn) at 1.
  by rewrite fmap_app, fmap_cons, join_app.
Qed.

Lemma contents_set_bucket t k n n' :
  nodes t !! Z.to_nat k = Some n →
  contents (set_bucket t k n')
  = mjoin (bucket_bids <$> take (Z.to_nat k) (nodes t)) ++ bucket_bids n'
    ++ mjoin (bucket_bids <$> drop (S (Z.to_nat k)) (nodes t)).
Proof.
  intros Hn. pose proof (lookup_lt_Some _ _ _ Hn) as Hlt.
  rewrite (contents_split _ k n') by by eapply set_bucket_lookup_eq.
  simpl. rewrite take_insert_ge by lia. rewrite drop_insert_lt by lia. done.
Qed.

(** ** The bucket count is fixed *)

Lemma Remove_tableSize id t t' r :
  Remove id t = Ok (t', r) → tableSize t' = tableSize t.
Proof. intros Hr. open_Remove Hr k m Hk Hm. by case_decide; simplify_eq. Qed.

Lemma step_size o t t' :
  step o t = Ok t' →
  tableSize t' = tableSize t ∧ length (nodes t') = length (nodes t).
Proof.
  destruct o as [b|id]; simpl.
  - intros Hi. split; [by eapply Insert_tableSize | by eapply Insert_length].
  - destruct (Remove id t) as [[t1 r]|] eqn:Hr; [|done]. simpl.
    intros ?; simplify_eq.
    split; [by eapply Remove_tableSize | by eapply Remove_length].
Qed.

(** X1. Whatever [Insert] and [Remove] calls are run on a table, its
    [tableSize] and the length of its bucket vector stay what they were;
    on a constructed table both are the size given to the constructor. *)
Theorem run_keeps_size ops t t' :
  run ops t = Ok t' →
  tableSize t' = tableSize t ∧ length (nodes t') = length (nodes t)
  ∧ ∀ size, 0 ≤ size → t = HashTable_sized size →
      tableSize t' = size ∧ Z.of_nat (length (nodes t')) = size.
Proof.
  revert t. induction ops as [|o ops IH]; intros t Hrun; simpl in Hrun.
  - simplify_eq. split; [done|]. split; [done|]. intros size Hs ->. simpl.
    rewrite length_replicate. lia.
  - destruct (step o t) as [t1|] eqn:Hstep; [|done]. simpl in Hrun.
    destruct (step_size _ _ _ Hstep) as [Hs1 Hl1].
    destruct (IH _ Hrun) as (Hs & Hl & _).
    split; [congruence|]. split; [congruence|]. intros size Hsize ->.
    rewrite Hs, Hl, Hs1, Hl1. simpl. rewrite length_replicate. lia.
Qed.

Lemma run_keeps_size_witness :
  run (OpInsert <$> [bid_0; bid_5; bid_10; bid_1]) (HashTable_sized 5)
  = Ok scenario_table
  ∧ tableSize scenario_table = tableSize (HashTable_sized 5)
  ∧ length (nodes scenario_table) = length (nodes (HashTable_sized 5))
  ∧ ∀ size, 0 ≤ size → HashTable_sized 5 = HashTable_sized size →
      tableSize scenario_table = size
      ∧ Z.of_nat (length (nodes scenario_table)) = size.
Proof.
  split; [reflexivity|].
  exact (run_keeps_size (OpInsert <$> [bid_0; bid_5; bid_10; bid_1])
           (HashTable_sized 5) scenario_table eq_refl).
Defined.

(** ** No identifier is stored twice *)

Lemma NoDup_bucket_ids size (l : list Node) : ∀ j,
  (∀ i n, l !! i = Some n → bucket_ok size (j + i) n) →
  NoDup (bidId <$> mjoin (bucket_bids <$> l)).
Proof.
  induction l as [|n l IH]; intros j Hl; [constructor|].
  rewrite fmap_cons. simpl. rewrite fmap_app. apply NoDup_app.
  split; [|split].
  - apply (ok_nodup _ _ _ (Hl 0%nat n eq_refl)).
  - intros id (b & -> & Hb)%list_elem_of_fmap (c & Hid & Hc)%list_elem_of_fmap.
    apply list_elem_of_join in Hc as (bs & Hc & (m & -> & Hm)%list_elem_of_fmap).
    apply list_elem_of_lookup in Hm as [i Hm].
    pose proof (ok_home _ _ _ (Hl 0%nat n eq_refl) b Hb) as Hhb.
    pose proof (ok_home _ _ _ (Hl (S i) m Hm) c Hc) as Hhc.
    rewrite <- Hid in Hhc. lia.
  - apply (IH (S j)). intros i m Hm.
    replace (S j + i)%nat with (j + S i)%nat by lia. by apply Hl.
Qed.

Lemma table_ok_NoDup t : table_ok t → NoDup (bidId <$> contents t).
Proof. intros Hok. apply (NoDup_bucket_ids (tableSize t) _ 0%nat), Hok. Qed.

Lemma NoDup_fmap_eq {A B} (f : A → B) (l : list A) x y :
  NoDup (f <$> l) → x ∈ l → y ∈ l → f x = f y → x = y.
Proof.
  induction l as [|a l IH]; [by intros _ ?%elem_of_nil|].
  rewrite fmap_cons, NoDup_cons, !elem_of_cons.
  intros [Ha Hnd] [->|Hx] [->|Hy] Heq; auto.
  - destruct Ha. rewrite Heq. by apply list_elem_of_fmap_2.
  - destruct Ha. rewrite <- Heq. by apply list_elem_of_fmap_2.
Qed.

(** X2. In every reachable table no two stored records carry the same
    identifier, across all buckets: the identifiers of the stored records
    are pairwise different, and two stored records with equal identifiers
    are the same record. *)
Theorem stored_identifiers_unique t :
  reachable t →
  NoDup (bidId <$> contents t)
  ∧ ∀ b c, b ∈ contents t → c ∈ contents t → bidId b = bidId c → b = c.
Proof.
  intros Hok%reachable_ok%table_ok_NoDup. split; [done|].
  intros b c. by apply NoDup_fmap_eq.
Qed.

Lemma stored_identifiers_unique_witness :
  reachable scenario_table
  ∧ NoDup (bidId <$> contents scenario_table)
  ∧ ∀ b c, b ∈ contents scenario_table → c ∈ contents scenario_table →
           bidId b = bidId c → b = c.
Proof.
  split; [exact scenario_reachable|].
  exact (stored_identifiers_unique scenario_table scenario_reachable).
Defined.

(** ** Keys and home buckets *)

Lemma chain_keys_append b k n :
  chain_keys (append_if_absent b k n) = chain_keys n
  ∨ chain_keys (append_if_absent b k n) = chain_keys n ++ [k].
Proof.
  induction n as [c kc|c kc n IH] using Node_chain_ind; simpl;
    case_decide; auto.
  simpl. destruct IH as [-> | ->]; auto.
Qed.

Lemma chain_keys_remove_after id n :
  chain_keys (remove_after id n).1 `sublist_of` chain_keys n.
Proof.
  induction n as [b k|b k n IH] using Node_chain_ind; [done|].
  rewrite remove_after_Some. case_decide.
  - destruct n as [c kc nx]. simpl. apply sublist_skip, sublist_cons.
    by destruct nx.
  - destruct (remove_after id n) as [n' r]. simpl in *. by apply sublist_skip.
Qed.

Lemma keys_ok_set_bucket t k n :
  keys_ok t →
  (key n ≠ UINT_MAX → Forall (λ k', k' = Z.of_nat (Z.to_nat k)) (chain_keys n)) →
  keys_ok (set_bucket t k n).
Proof.
  intros Ht Hn i m [[-> ->]|[_ Hm]]%set_bucket_lookup; [done | by apply Ht].
Qed.

Lemma reachable_keys_ok t : reachable t → keys_ok t.
Proof.
  induction 1 as [size Hs|t b t' Ht IH Hi|t id t' r Ht IH Hr].
  - intros i n [-> _]%lookup_replicate Hkey. done.
  - pose proof (ok_size _ (reachable_ok _ Ht)) as Hsize.
    open_Insert Hi k n Hk Hn. simplify_eq.
    destruct (hash_inv _ _ _ Hk) as [Hs0 Hkeq].
    assert (0 ≤ k) as Hk0 by (rewrite Hkeq; apply Z.mod_pos_bound; lia).
    apply keys_ok_set_bucket; [done|]. rewrite Z2Nat.id by done.
    case_decide as Hkey; [by repeat constructor|].
    rewrite append_if_absent_key. intros _.
    specialize (IH _ _ Hn Hkey). rewrite Z2Nat.id in IH by done.
    destruct (chain_keys_append b k n) as [-> | ->]; [done|].
    apply Forall_app. split; [done | by repeat constructor].
  - open_Remove Hr k n Hk Hn.
    case_decide; simplify_eq; (apply keys_ok_set_bucket; [done|]); [done|].
    destruct (remove_after_head id n) as [_ ->]. intros Hkey.
    pose proof (IH _ _ Hn Hkey) as Hkeys. rewrite Forall_forall in Hkeys.
    apply Forall_forall. intros k' Hk'. apply Hkeys.
    eapply elem_of_sublist; [exact Hk' | apply chain_keys_remove_after].
Qed.

(** X3. In every reachable table each stored record lies in the chain of
    the bucket that [hash] gives for its identifier; that bucket's index is
    inside the vector and is not the empty sentinel, and every node of
    the chain carries this index in its [key] field. *)
Theorem stored_record_home t b :
  reachable t → b ∈ contents t →
  ∃ k n, hash t (atoi (bidId b)) = Ok k
         ∧ 0 ≤ k < tableSize t ∧ k ≠ UINT_MAX
         ∧ nodes t !! Z.to_nat k = Some n
         ∧ b ∈ chain_bids n
         ∧ Forall (λ k', k' = k) (chain_keys n).
Proof.
  intros Ht Hb. pose proof (reachable_ok _ Ht) as Hok.
  destruct (contents_home _ _ Hok Hb) as (k & n & Hk & Hn & Hkey & Hin & _).
  destruct (hash_inv _ _ _ Hk) as [Hs0 Hkeq]. pose proof (ok_size _ Hok).
  assert (0 ≤ k < tableSize t) as Hrange
    by (rewrite Hkeq; apply Z.mod_pos_bound; lia).
  exists k, n. split; [done|]. split; [done|]. split; [lia|].
  split; [done|]. split; [done|].
  pose proof (reachable_keys_ok _ Ht _ _ Hn Hkey) as Hkeys.
  by rewrite Z2Nat.id in Hkeys by lia.
Qed.

Lemma stored_record_home_witness :
  reachable scenario_table ∧ bid_10 ∈ contents scenario_table
  ∧ ∃ k n, hash scenario_table (atoi (bidId bid_10)) = Ok k
           ∧ 0 ≤ k < tableSize scenario_table ∧ k ≠ UINT_MAX
           ∧ nodes scenario_table !! Z.to_nat k = Some n
           ∧ bid_10 ∈ chain_bids n
           ∧ Forall (λ k', k' = k) (chain_keys n).
Proof.
  assert (bid_10 ∈ contents scenario_table) as Hin
    by (vm_compute; do 2 right; left).
  split; [exact scenario_reachable|]. split; [exact Hin|].
  exact (stored_record_home scenario_table bid_10 scenario_reachable Hin).
Defined.

(** ** [Insert] in a reachable table *)

Lemma Insert_new_bucket t b :
  table_ok t → 0 < tableSize t → ¬ stored (bidId b) t →
  ∃ k n n', hash t (atoi (bidId b)) = Ok k
            ∧ nodes t !! Z.to_nat k = Some n
            ∧ Insert b t = Ok (set_bucket t k n')
            ∧ bucket_bids n' = bucket_bids n ++ [b].
Proof.
  intros Hok Hs Hns.
  destruct (bucket_exists t (bidId b) (ok_length _ Hok) Hs) as [n Hn].
  pose proof (hash_Ok t (atoi (bidId b)) Hs) as Hk.
  pose proof (Z.mod_pos_bound (to_uint (atoi (bidId b))) _ Hs) as Hrange.
  pose proof (ok_size _ Hok) as Hsize.
  set (k := to_uint (atoi (bidId b)) mod tableSize t) in *.
  exists k, n. eexists. split; [done|]. split; [done|].
  split; [exact (Insert_at _ _ _ _ Hk Hn)|].
  case_decide as Hkey.
  - rewrite (bucket_bids_empty n) by done.
    rewrite bucket_bids_occupied; [done | simpl; lia].
  - rewrite !bucket_bids_occupied by by rewrite ?append_if_absent_key.
    apply append_if_absent_absent.
    intros (c & Hid & Hc)%list_elem_of_fmap. apply Hns. exists c.
    split; [|done]. apply elem_of_contents. exists (Z.to_nat k), n.
    by rewrite bucket_bids_occupied.
Qed.

(** X4. In a reachable table with at least one bucket, [Insert] of a
    record whose identifier is not stored completes; afterwards [Search]
    on the identifier returns this record, the stored records are the
    earlier ones and the new one, and there is one record more. *)
Theorem Insert_then_Search t b :
  reachable t → 0 < tableSize t → ¬ stored (bidId b) t →
  ∃ t', Insert b t = Ok t'
        ∧ Search (bidId b) t' = Ok b
        ∧ (∀ c, c ∈ contents t' ↔ c ∈ contents t ∨ c = b)
        ∧ live_count t' = S (live_count t).
Proof.
  intros Hok%reachable_ok Hs Hns.
  destruct (Insert_new_bucket t b Hok Hs Hns)
    as (k & n & n' & Hk & Hn & Hi & Hbids).
  pose proof (contents_set_bucket t k n n' Hn) as Hnew.
  pose proof (contents_split t k n Hn) as Hold. rewrite Hbids in Hnew.
  assert (∀ c, c ∈ contents (set_bucket t k n') ↔ c ∈ contents t ∨ c = b)
    as Hmem.
  { intros c. rewrite Hnew, Hold. rewrite !elem_of_app, list_elem_of_singleton.
    tauto. }
  eexists. split; [exact Hi|]. split; [|split; [done|]].
  - apply Search_contents; [by eapply Insert_ok|]. apply Hmem. by right.
  - unfold live_count. rewrite Hnew, Hold. rewrite !length_app. simpl. lia.
Qed.

Lemma Insert_then_Search_witness :
  reachable scenario_table ∧ 0 < tableSize scenario_table
  ∧ ¬ stored (bidId (mkBid "7" "seven" "general" 5)) scenario_table
  ∧ ∃ t', Insert (mkBid "7" "seven" "general" 5) scenario_table = Ok t'
          ∧ Search (bidId (mkBid "7" "seven" "general" 5)) t'
            = Ok (mkBid "7" "seven" "general" 5)
          ∧ (∀ c, c ∈ contents t' ↔
                  c ∈ contents scenario_table
                  ∨ c = mkBid "7" "seven" "general" 5)
          ∧ live_count t' = S (live_count scenario_table).
Proof.
  assert (0 < tableSize scenario_table) as Hs by (simpl; lia).
  split; [exact scenario_reachable|]. split; [exact Hs|].
  split; [exact scenario_not_stored_7|].
  exact (Insert_then_Search scenario_table (mkBid "7" "seven" "general" 5)
           scenario_reachable Hs scenario_not_stored_7).
Defined.

(** X5. [Insert] never loses a record: in a reachable table, after an
    [Insert] that completed the identifier of the inserted record is
    stored, every record stored before is still stored, and [Search] on
    its identifier returns it. *)
Theorem Insert_keeps_records t b t' :
  reachable t → Insert b t = Ok t' →
  stored (bidId b) t'
  ∧ ∀ c, c ∈ contents t → c ∈ contents t' ∧ Search (bidId c) t' = Ok c.
Proof.
  intros Hok%reachable_ok Hi. pose proof (Insert_ok _ _ _ Hok Hi) as Hok'.
  assert (∀ c, c ∈ contents t → c ∈ contents t') as Hkeep.
  { intros c (i & n & Hn & Hc)%elem_of_contents.
    destruct (lookup_same_length (nodes t') (nodes t) i n) as [n' Hn'];
      [by rewrite (Insert_length _ _ _ Hi) | done |].
    apply elem_of_contents. exists i, n'. split; [done|].
    destruct (Insert_bucket_bids _ _ _ _ _ _ Hi Hn Hn') as [-> | ->];
      [done | apply elem_of_app; by left]. }
  split.
  - pose proof Hi as Hi'. open_Insert Hi' k n Hk Hn. simplify_eq.
    destruct (hash_inv _ _ _ Hk) as [Hs0 Hkeq]. pose proof (ok_size _ Hok).
    assert (0 ≤ k < tableSize t) by (rewrite Hkeq; apply Z.mod_pos_bound; lia).
    case_decide as Hkey.
    + exists b. split; [|done]. apply elem_of_contents.
      exists (Z.to_nat k), (mkNode b k None).
      split; [by eapply set_bucket_lookup_eq|].
      rewrite bucket_bids_occupied; [by left | simpl; lia].
    + destruct (decide (bidId b ∈ bidId <$> chain_bids n)) as [Hin|Hout].
      * apply list_elem_of_fmap in Hin as (c & Hid & Hc). exists c.
        split; [|done]. apply Hkeep, elem_of_contents.
        exists (Z.to_nat k), n. by rewrite bucket_bids_occupied.
      * exists b. split; [|done]. apply elem_of_contents.
        exists (Z.to_nat k), (append_if_absent b k n).
        split; [by eapply set_bucket_lookup_eq|].
        rewrite bucket_bids_occupied by by rewrite append_if_absent_key.
        rewrite append_if_absent_absent by done. apply elem_of_app. right.
        by apply list_elem_of_singleton.
  - intros c Hc. split; [by apply Hkeep|].
    apply Search_contents; [done | by apply Hkeep].
Qed.

Lemma Insert_keeps_records_witness :
  reachable scenario_table
  ∧ Insert bid_0_again scenario_table = Ok scenario_table
  ∧ stored (bidId bid_0_again) scenario_table
  ∧ ∀ c, c ∈ contents scenario_table →
         c ∈ contents scenario_table ∧ Search (bidId c) scenario_table = Ok c.
Proof.
  split; [exact scenario_reachable|]. split; [reflexivity|].
  exact (Insert_keeps_records scenario_table bid_0_again scenario_table
           scenario_reachable eq_refl).
Defined.

(** ** [Remove] in a reachable table *)

(** What [remove_after] does to the records behind [n], none of whose
    identifiers occurs twice: the one with the identifier goes, and is the
    one released; the others stay. *)
Lemma remove_after_spec id n :
  NoDup (bidId <$> link_bids (next n)) →
  (∀ c, c ∈ link_bids (next (remove_after id n).1)
        ↔ c ∈ link_bids (next n) ∧ bidId c ≠ id)
  ∧ (∀ c, (remove_after id n).2 = Some c
          ↔ c ∈ link_bids (next n) ∧ bidId c = id)
  ∧ (length (link_bids (next (remove_after id n).1))
     + released_count (remove_after id n).2
     = length (link_bids (next n)))%nat.
Proof.
  induction n as [b k|b k m IH] using Node_chain_ind.
  { intros _. simpl. split; [|split; [|done]]; intros c;
      rewrite elem_of_nil; [tauto|]. split; [done | tauto]. }
  rewrite remove_after_Some. cbn [next link_bids].
  rewrite (chain_bids_unfold m), fmap_cons, NoDup_cons. intros [Hhd Hnd].
  case_decide as Hid.
  - cbn [fst snd next]. split; [|split; [|simpl; lia]]; intros c;
      rewrite elem_of_cons.
    + split; [|intros [[->|Hc] Hne]; done].
      intros Hc. split; [by right|]. intros Hcid. apply Hhd.
      rewrite Hid, <- Hcid. by apply list_elem_of_fmap_2.
    + split; [intros ?; simplify_eq; split; [by left | done]|].
      intros [[->|Hc] Hcid]; [done|]. destruct Hhd.
      rewrite Hid, <- Hcid. by apply list_elem_of_fmap_2.
  - destruct (IH Hnd) as (Hstay & Hrel & Hlen).
    pose proof (remove_after_head id m) as [Hbid _].
    destruct (remove_after id m) as [m' r]. cbn [fst snd next link_bids] in *.
    rewrite (chain_bids_unfold m'), Hbid.
    split; [|split; [|simpl; lia]]; intros c; rewrite ?elem_of_cons.
    + rewrite Hstay. split; [intros [->|[? ?]]; auto | tauto].
    + rewrite Hrel. split; [tauto|]. intros [[->|Hc] Hcid]; done.
Qed.

Lemma Remove_unstores t id t' r :
  table_ok t → Remove id t = Ok (t', r) → ¬ stored id t'.
Proof.
  intros Hok Hr (c & Hc & Hcid). pose proof (Remove_ok _ _ _ _ Hok Hr) as Hok'.
  pose proof (Remove_tableSize _ _ _ _ Hr) as Hsize.
  destruct (contents_home _ _ Hok' Hc) as (k' & n' & Hk' & Hn' & Hkey' & Hin & _).
  open_Remove Hr k n Hk Hn.
  assert (k' = k) as ->.
  { unfold hash in Hk, Hk'. rewrite Hsize, Hcid in Hk'. congruence. }
  case_decide as Hhead; simplify_eq;
    rewrite (set_bucket_lookup_eq _ _ _ _ Hn) in Hn'; simplify_eq.
  destruct (remove_after_head (bidId c) n) as [Hbid Hkey].
  rewrite Hkey in Hkey'.
  pose proof (ok_nodup _ _ _ (ok_buckets _ Hok _ _ Hn)) as Hnd.
  rewrite bucket_bids_occupied, chain_bids_unfold, fmap_cons in Hnd by done.
  apply NoDup_cons in Hnd as [_ Hnd].
  rewrite chain_bids_unfold, elem_of_cons, Hbid in Hin.
  destruct Hin as [->|Hin]; [done|].
  apply (remove_after_gone (bidId c) n Hnd). by apply list_elem_of_fmap_2.
Qed.

(** X6. In a reachable table, after a [Remove] that completed the
    identifier is not stored, whether it was stored before or not, and
    a second [Remove] of it changes nothing and releases nothing. *)
Theorem Remove_then_not_stored t id t' r :
  reachable t → Remove id t = Ok (t', r) →
  ¬ stored id t' ∧ Remove id t' = Ok (t', None).
Proof.
  intros Hok%reachable_ok Hr.
  pose proof (Remove_unstores _ _ _ _ Hok Hr) as Hns. split; [done|].
  apply Remove_not_stored; [by eapply Remove_ok| |done].
  rewrite (Remove_tableSize _ _ _ _ Hr).
  destruct (Remove_inv _ _ _ Hr) as (k & n & [Hs0 _]%hash_inv & _).
  pose proof (ok_size _ Hok). lia.
Qed.

Lemma Remove_then_not_stored_witness :
  reachable scenario_table
  ∧ Remove "5" scenario_table
    = Ok (set_bucket scenario_table 0
            (mkNode bid_0 0 (Some (mkNode bid_10 0 None))), Some bid_5)
  ∧ ¬ stored "5" (set_bucket scenario_table 0
                    (mkNode bid_0 0 (Some (mkNode bid_10 0 None))))
  ∧ Remove "5" (set_bucket scenario_table 0
                  (mkNode bid_0 0 (Some (mkNode bid_10 0 None))))
    = Ok (set_bucket scenario_table 0
            (mkNode bid_0 0 (Some (mkNode bid_10 0 None))), None).
Proof.
  split; [exact scenario_reachable|]. split; [reflexivity|].
  exact (Remove_then_not_stored scenario_table "5" _ (Some bid_5)
           scenario_reachable eq_refl).
Defined.

Lemma hash_set_bucket t k n z : hash (set_bucket t k n) z = hash t z.
Proof. done. Qed.

Lemma stored_bucket_index t i m c k :
  table_ok t → nodes t !! i = Some m → c ∈ bucket_bids m →
  hash t (atoi (bidId c)) = Ok k → i = Z.to_nat k.
Proof.
  intros Hok Hm Hc Hk. destruct (hash_inv _ _ _ Hk) as [_ ->].
  rewrite (ok_home _ _ _ (ok_buckets _ Hok _ _ Hm) c Hc). by rewrite Nat2Z.id.
Qed.

(** X7. In a reachable table, [Remove] of an identifier that the head of
    its bucket does not carry removes the record with this identifier and
    no other: the stored records afterwards are those stored before
    with a different identifier, the released node is the stored record
    with the identifier (none if there is none), and the number of
    records drops by the number of nodes released. *)
Theorem Remove_behind_head_exact t id k n :
  reachable t → hash t (atoi id) = Ok k → nodes t !! Z.to_nat k = Some n →
  bidId (bid n) ≠ id →
  ∃ t' r, Remove id t = Ok (t', r)
          ∧ (∀ c, c ∈ contents t' ↔ c ∈ contents t ∧ bidId c ≠ id)
          ∧ (∀ c, r = Some c ↔ c ∈ contents t ∧ bidId c = id)
          ∧ (live_count t' + released_count r = live_count t)%nat.
Proof.
  intros Hok%reachable_ok Hk Hn Hhead.
  rewrite (Remove_at _ _ _ _ Hk Hn), decide_False by done.
  pose proof (ok_buckets _ Hok _ _ Hn) as [Hempty _ Hnd].
  assert (NoDup (bidId <$> link_bids (next n))) as HndL.
  { destruct (decide (key n = UINT_MAX)) as [Hmax|Hocc].
    - rewrite (Hempty Hmax). constructor.
    - rewrite bucket_bids_occupied, chain_bids_unfold, fmap_cons in Hnd by done.
      by apply NoDup_cons in Hnd as [_ Hnd]. }
  destruct (remove_after_spec id n HndL) as (Hstay & Hrel & Hlen).
  destruct (remove_after_head id n) as [Hbid Hkey].
  set (n' := (remove_after id n).1) in *. set (r := (remove_after id n).2) in *.
  assert (∀ c, c ∈ bucket_bids n' ↔ c ∈ bucket_bids n ∧ bidId c ≠ id) as Hbb.
  { intros c. unfold bucket_bids. rewrite Hkey.
    case_decide; [rewrite elem_of_nil; tauto|].
    rewrite !chain_bids_unfold, Hbid, !elem_of_cons, Hstay.
    split; [intros [->|[? ?]]; auto | intros [[->|?] ?]; auto]. }
  assert (∀ c, r = Some c ↔ c ∈ bucket_bids n ∧ bidId c = id) as Hrb.
  { intros c. rewrite Hrel. unfold bucket_bids. case_decide as Hmax.
    - rewrite (Hempty Hmax). simpl. rewrite elem_of_nil. tauto.
    - rewrite chain_bids_unfold, elem_of_cons.
      split; [intros [? ?]; auto | intros [[->|?] ?]; [done | auto]]. }
  assert (length (bucket_bids n') + released_count r
          = length (bucket_bids n))%nat as Hbl.
  { unfold bucket_bids. rewrite Hkey. case_decide as Hmax.
    - rewrite (Hempty Hmax) in Hlen. simpl in *. lia.
    - rewrite !chain_bids_unfold, Hbid. simpl. lia. }
  exists (set_bucket t k n'), r. split; [done|]. split; [|split].
  - intros c. rewrite (elem_of_contents_set_bucket _ _ _ _ _ Hn).
    rewrite elem_of_contents. split.
    + intros [[Hc Hcid]%Hbb | (i & m & Hne & Hm & Hc)].
      * split; [by exists (Z.to_nat k), n | done].
      * split; [by exists i, m|]. intros Hcid. apply Hne.
        apply (stored_bucket_index t i m c k Hok Hm Hc). by rewrite Hcid.
    + intros [(i & m & Hm & Hc) Hcid].
      destruct (decide (i = Z.to_nat k)) as [->|Hne]; [|right; eauto].
      left. apply Hbb. by simplify_eq.
  - intros c. rewrite Hrb, elem_of_contents. split.
    + intros [Hc Hcid]. split; [by exists (Z.to_nat k), n | done].
    + intros [(i & m & Hm & Hc) Hcid].
      assert (i = Z.to_nat k) as ->
        by (apply (stored_bucket_index t i m c k Hok Hm Hc); by rewrite Hcid).
      by simplify_eq.
  - unfold live_count.
    rewrite (contents_set_bucket _ _ _ _ Hn), (contents_split _ _ _ Hn).
    rewrite !length_app. lia.
Qed.

Lemma Remove_behind_head_exact_witness :
  reachable scenario_table ∧ hash scenario_table (atoi "10") = Ok 0
  ∧ nodes scenario_table !! Z.to_nat 0 = Some chain_0_5_10
  ∧ bidId (bid chain_0_5_10) ≠ "10"
  ∧ ∃ t' r, Remove "10" scenario_table = Ok (t', r)
            ∧ (∀ c, c ∈ contents t' ↔
                    c ∈ contents scenario_table ∧ bidId c ≠ "10")
            ∧ (∀ c, r = Some c ↔
                    c ∈ contents scenario_table ∧ bidId c = "10")
            ∧ (live_count t' + released_count r
               = live_count scenario_table)%nat.
Proof.
  assert (bidId (bid chain_0_5_10) ≠ "10") as Hne by discriminate.
  split; [exact scenario_reachable|]. split; [reflexivity|].
  split; [reflexivity|]. split; [exact Hne|].
  exact (Remove_behind_head_exact scenario_table "10" 0 chain_0_5_10
           scenario_reachable eq_refl eq_refl Hne).
Defined.

(** X8. In a reachable table, [Remove] of the identifier carried by the
    head of its bucket releases nothing and unstores every record whose
    identifier addresses this bucket, while the other buckets keep
    theirs; [Search] on the identifier still returns the head's bid,
    until an [Insert] of another identifier into this bucket overwrites
    the slot. *)
Theorem Remove_head_drops_bucket t id k n :
  reachable t → hash t (atoi id) = Ok k → nodes t !! Z.to_nat k = Some n →
  bidId (bid n) = id →
  ∃ t', Remove id t = Ok (t', None)
        ∧ (∀ c, c ∈ contents t' ↔
                c ∈ contents t ∧ hash t (atoi (bidId c)) ≠ Ok k)
        ∧ (live_count t' + length (bucket_bids n) = live_count t)%nat
        ∧ Search id t' = Ok (bid n)
        ∧ ∀ b, bidId b ≠ id → hash t (atoi (bidId b)) = Ok k →
               ∃ t'', Insert b t' = Ok t'' ∧ Search id t'' = Ok Bid_default.
Proof.
  intros Hok%reachable_ok Hk Hn Hhead.
  rewrite (Remove_at _ _ _ _ Hk Hn), decide_True by done.
  set (n' := mkNode (bid n) UINT_MAX None).
  pose proof (set_bucket_lookup_eq t k n' n Hn) as Hn'.
  exists (set_bucket t k n'). split; [done|]. split; [|split; [|split]].
  - intros c. rewrite (elem_of_contents_set_bucket _ _ _ _ _ Hn).
    rewrite (bucket_bids_empty n') by done.
    rewrite elem_of_contents, elem_of_nil. split.
    + intros [[]|(i & m & Hne & Hm & Hc)]. split; [by exists i, m|].
      intros Hck. apply Hne.
      apply (stored_bucket_index t i m c k Hok Hm Hc Hck).
    + intros [(i & m & Hm & Hc) Hck]. right. exists i, m.
      split; [|done]. intros ->. apply Hck. simplify_eq.
      destruct (hash_inv _ _ _ Hk) as [Hs0 Hkeq]. unfold hash.
      rewrite decide_False by done.
      rewrite (ok_home _ _ _ (ok_buckets _ Hok _ _ Hn) c Hc).
      rewrite Z2Nat.id; [done|]. pose proof (ok_size _ Hok).
      rewrite Hkeq. apply Z.mod_pos_bound. lia.
  - unfold live_count.
    rewrite (contents_set_bucket _ _ _ _ Hn), (contents_split _ _ _ Hn).
    rewrite (bucket_bids_empty n') by done. rewrite !length_app. simpl. lia.
  - rewrite (Search_at id _ k n'); [|done|done]. simpl.
    by rewrite decide_True.
  - intros b Hb Hbk.
    rewrite (Insert_at b (set_bucket t k n') k n'); [|done|done].
    rewrite decide_True by done. eexists. split; [done|].
    erewrite Search_at; [|exact Hk|by eapply set_bucket_lookup_eq].
    simpl. by rewrite decide_False.
Qed.

Lemma Remove_head_drops_bucket_witness :
  reachable scenario_table ∧ hash scenario_table (atoi "0") = Ok 0
  ∧ nodes scenario_table !! Z.to_nat 0 = Some chain_0_5_10
  ∧ bidId (bid chain_0_5_10) = "0"
  ∧ ∃ t', Remove "0" scenario_table = Ok (t', None)
          ∧ (∀ c, c ∈ contents t' ↔
                  c ∈ contents scenario_table
                  ∧ hash scenario_table (atoi (bidId c)) ≠ Ok 0)
          ∧ (live_count t' + length (bucket_bids chain_0_5_10)
             = live_count scenario_table)%nat
          ∧ Search "0" t' = Ok (bid chain_0_5_10)
          ∧ ∀ b, bidId b ≠ "0" → hash scenario_table (atoi (bidId b)) = Ok 0 →
                 ∃ t'', Insert b t' = Ok t'' ∧ Search "0" t'' = Ok Bid_default.
Proof.
  split; [exact scenario_reachable|]. split; [reflexivity|].
  split; [reflexivity|]. split; [reflexivity|].
  exact (Remove_head_drops_bucket scenario_table "0" 0 chain_0_5_10
           scenario_reachable eq_refl eq_refl eq_refl).
Defined.

(** X9. [Insert] does not update a stored record, but [Remove] followed
    by [Insert] does: in a reachable table with at least one bucket both
    calls complete for any record, and [Search] on its identifier then
    returns this record, whatever was stored under the identifier. *)
Theorem Remove_Insert_replaces t b :
  reachable t → 0 < tableSize t →
  ∃ t1 r t2, Remove (bidId b) t = Ok (t1, r)
             ∧ Insert b t1 = Ok t2
             ∧ Search (bidId b) t2 = Ok b.
Proof.
  intros Hok%reachable_ok Hs.
  destruct (bucket_exists t (bidId b) (ok_length _ Hok) Hs) as [n Hn].
  pose proof (Remove_at _ _ _ _ (hash_Ok _ _ Hs) Hn) as Hr.
  destruct (if decide (bidId (bid n) = bidId b) then _ else _)
    as [t1 r] eqn:Hpair in Hr.
  pose proof (Remove_ok _ _ _ _ Hok Hr) as Hok1.
  pose proof (Remove_unstores _ _ _ _ Hok Hr) as Hns.
  pose proof (Remove_tableSize _ _ _ _ Hr) as Hs1.
  destruct (Insert_not_stored t1 b Hok1) as (t2 & Hi & Hc); [lia|done|].
  exists t1, r, t2. split; [done|]. split; [done|].
  apply Search_contents; [by eapply Insert_ok|]. apply Hc. by right.
Qed.

Lemma Remove_Insert_replaces_witness :
  reachable scenario_table ∧ 0 < tableSize scenario_table
  ∧ ∃ t1 r t2, Remove (bidId bid_0_again) scenario_table = Ok (t1, r)
               ∧ Insert bid_0_again t1 = Ok t2
               ∧ Search (bidId bid_0_again) t2 = Ok bid_0_again.
Proof.
  assert (0 < tableSize scenario_table) as Hs by (simpl; lia).
  split; [exact scenario_reachable|]. split; [exact Hs|].
  exact (Remove_Insert_replaces scenario_table bid_0_again
           scenario_reachable Hs).
Defined.

(** ** [Search] *)

Lemma stored_dec_aux t id :
  (∃ c, c ∈ contents t ∧ bidId c = id) ∨ ¬ stored id t.
Proof.
  destruct (decide (id ∈ bidId <$> contents t)) as [Hin|Hout].
  - left. apply list_elem_of_fmap in Hin as (c & -> & Hc). eauto.
  - right. intros (c & Hc & <-). apply Hout. by apply list_elem_of_fmap_2.
Qed.

(** X10. What [Search] returns in a reachable table: if the identifier is
    stored, the stored record; if it is not, either the default record or
    the bid left in the head slot of an emptied bucket, which then
    carries the identifier. *)
Theorem Search_result t id b :
  reachable t → Search id t = Ok b →
  (b ∈ contents t ∧ bidId b = id)
  ∨ (¬ stored id t
     ∧ (b = Bid_default
        ∨ ∃ i n, nodes t !! i = Some n ∧ key n = UINT_MAX ∧ next n = None
                 ∧ bid n = b ∧ bidId b = id)).
Proof.
  intros Hok%reachable_ok Hsearch.
  destruct (stored_dec_aux t id) as [(c & Hc & Hid)|Hns].
  - left. subst id. rewrite (Search_contents _ _ Hok Hc) in Hsearch.
    by simplify_eq.
  - right. split; [done|]. unfold Search in Hsearch.
    destruct (hash t (atoi id)) as [k|] eqn:Hk; [|done]. simpl in Hsearch.
    destruct (at_ (nodes t) k) as [n|] eqn:Hn; [|done]. simpl in Hsearch.
    apply at_inv in Hn. simplify_eq.
    destruct (search_chain id n) as [c|] eqn:Hfind; [|by left]. right.
    apply search_chain_Some in Hfind as [Hin Hid].
    destruct (decide (key n = UINT_MAX)) as [Hmax|Hocc].
    + pose proof (ok_empty _ _ _ (ok_buckets _ Hok _ _ Hn) Hmax) as Hnext.
      rewrite chain_bids_unfold, Hnext in Hin.
      apply list_elem_of_singleton in Hin as ->. by exists (Z.to_nat k), n.
    + destruct Hns. exists c. split; [|done]. apply elem_of_contents.
      exists (Z.to_nat k), n. by rewrite bucket_bids_occupied.
Qed.

Lemma Search_result_witness :
  reachable scenario_table ∧ Search "10" scenario_table = Ok bid_10
  ∧ ((bid_10 ∈ contents scenario_table ∧ bidId bid_10 = "10")
     ∨ (¬ stored "10" scenario_table
        ∧ (bid_10 = Bid_default
           ∨ ∃ i n, nodes scenario_table !! i = Some n ∧ key n = UINT_MAX
                    ∧ next n = None ∧ bid n = bid_10 ∧ bidId bid_10 = "10"))).
Proof.
  split; [exact scenario_reachable|]. split; [reflexivity|].
  exact (Search_result scenario_table "10" bid_10 scenario_reachable eq_refl).
Defined.

(** ** Lines and records *)

Lemma line_bid_bucket_lines i n : line_bid <$> bucket_lines i n = bucket_bids n.
Proof.
  unfold bucket_lines. destruct (bucket_bids n) as [|b bs]; [done|].
  rewrite fmap_cons. simpl. f_equal. rewrite <- list_fmap_compose.
  by rewrite list_fmap_id.
Qed.

Lemma line_bid_lines (l : list Node) : ∀ j,
  line_bid <$> mjoin (imap (λ i n, bucket_lines (Z.of_nat (j + i)) n) l)
  = mjoin (bucket_bids <$> l).
Proof.
  induction l as [|n l IH]; intros j; [done|].
  simpl. rewrite fmap_app, line_bid_bucket_lines. f_equal.
  etrans; [|exact (IH (S j))]. do 2 f_equal. apply imap_ext.
  intros i m _. simpl. do 2 f_equal. lia.
Qed.

(** ** The new table *)

Lemma contents_new size : contents (HashTable_sized size) = [].
Proof.
  unfold contents. simpl. induction (Z.to_nat size); [done|]. simpl. done.
Qed.

(** X11. A newly constructed table with at least one bucket is empty for
    every operation: nothing is stored, [PrintAll] writes nothing,
    [Search] returns the default record for every identifier (the empty
    identifier included, which the default head carries), and [Remove]
    of any identifier leaves the table as it is. *)
Theorem new_table_empty size id :
  1 ≤ size ≤ UINT_MAX →
  contents (HashTable_sized size) = []
  ∧ PrintAll (HashTable_sized size) = Ok []
  ∧ Search id (HashTable_sized size) = Ok Bid_default
  ∧ Remove id (HashTable_sized size) = Ok (HashTable_sized size, None).
Proof.
  intros Hs. set (t := HashTable_sized size).
  assert (table_ok t) as Hok by (apply HashTable_sized_ok; lia).
  assert (0 < tableSize t) as Hpos by (simpl; lia).
  split; [apply contents_new|]. split; [|split].
  - rewrite PrintAll_lines. f_equal.
    pose proof (line_bid_lines (nodes t) 0%nat) as Hbids.
    apply (fmap_nil_inv line_bid). etrans; [exact Hbids|]. apply contents_new.
  - destruct (bucket_exists t id (ok_length _ Hok) Hpos) as [n Hn].
    rewrite (Search_at _ _ _ _ (hash_Ok _ _ Hpos) Hn).
    simpl in Hn. apply lookup_replicate in Hn as [-> _]. simpl.
    by case_decide.
  - apply Remove_not_stored; [done..|].
    intros (c & Hc & _). unfold t in Hc. rewrite contents_new in Hc.
    by apply elem_of_nil in Hc.
Qed.

Lemma new_table_empty_witness :
  1 ≤ DEFAULT_SIZE ≤ UINT_MAX
  ∧ contents (HashTable_sized DEFAULT_SIZE) = []
  ∧ PrintAll (HashTable_sized DEFAULT_SIZE) = Ok []
  ∧ Search "98223" (HashTable_sized DEFAULT_SIZE) = Ok Bid_default
  ∧ Remove "98223" (HashTable_sized DEFAULT_SIZE)
    = Ok (HashTable_sized DEFAULT_SIZE, None).
Proof.
  assert (1 ≤ DEFAULT_SIZE ≤ UINT_MAX) as Hs
    by (unfold DEFAULT_SIZE, UINT_MAX; lia).
  split; [exact Hs|]. exact (new_table_empty DEFAULT_SIZE "98223" Hs).
Defined.

(** ** [PrintAll] *)

(** X12. [PrintAll] completes on every table and the records of the
    lines it writes are, in this order, the records the table holds; in a
    reachable table no identifier is printed twice. *)
Theorem PrintAll_prints_contents t :
  ∃ ls, PrintAll t = Ok ls
        ∧ line_bid <$> ls = contents t
        ∧ length ls = live_count t
        ∧ (reachable t → NoDup (bidId ∘ line_bid <$> ls)).
Proof.
  eexists. split; [apply PrintAll_lines|].
  pose proof (line_bid_lines (nodes t) 0%nat) as Hbids. simpl in Hbids.
  split; [exact Hbids|]. split.
  - unfold live_count, contents. rewrite <- Hbids. by rewrite length_fmap.
  - intros Hok%reachable_ok%table_ok_NoDup.
    rewrite list_fmap_compose, Hbids. exact Hok.
Qed.

(** ** Inserting a sequence that may repeat identifiers *)

Lemma Insert_completes t b :
  table_ok t → 0 < tableSize t →
  ∃ t', Insert b t = Ok t' ∧ table_ok t' ∧ tableSize t' = tableSize t.
Proof.
  intros Hok Hs.
  destruct (bucket_exists t (bidId b) (ok_length _ Hok) Hs) as [n Hn].
  pose proof (Insert_at _ _ _ _ (hash_Ok _ _ Hs) Hn) as Hi.
  eexists. split; [exact Hi|]. split; [by eapply Insert_ok | done].
Qed.

Lemma Insert_contents_sub b t t' c :
  Insert b t = Ok t' → c ∈ contents t' → c ∈ contents t ∨ c = b.
Proof.
  intros Hi (i & n' & Hn' & Hc)%elem_of_contents.
  destruct (lookup_same_length (nodes t) (nodes t') i n') as [n Hn];
    [by rewrite (Insert_length _ _ _ Hi) | done |].
  destruct (Insert_bucket_bids _ _ _ _ _ _ Hi Hn Hn') as [Heq|Heq];
    rewrite Heq in Hc.
  - left. apply elem_of_contents. eauto.
  - apply elem_of_app in Hc as [Hc| ->%list_elem_of_singleton]; [|by right].
    left. apply elem_of_contents. eauto.
Qed.

Lemma Insert_untouched_heads b t t' :
  table_ok t → untouched_heads t → Insert b t = Ok t' → untouched_heads t'.
Proof.
  intros Hok Hun Hi. open_Insert Hi k n Hk Hn. simplify_eq.
  destruct (hash_inv _ _ _ Hk) as [Hs0 Hkeq]. pose proof (ok_size _ Hok).
  assert (0 ≤ k < tableSize t) by (rewrite Hkeq; apply Z.mod_pos_bound; lia).
  intros i m [[-> ->]|[_ Hm]]%set_bucket_lookup Hkey; [|by eapply Hun].
  case_decide as Hmax; [simpl in Hkey; lia|].
  by rewrite append_if_absent_key in Hkey.
Qed.

Lemma Search_not_stored_untouched t id :
  table_ok t → untouched_heads t → 0 < tableSize t → ¬ stored id t →
  Search id t = Ok Bid_default.
Proof.
  intros Hok Hun Hs Hns.
  destruct (bucket_exists t id (ok_length _ Hok) Hs) as [n Hn].
  rewrite (Search_at _ _ _ _ (hash_Ok _ _ Hs) Hn).
  destruct (search_chain id n) as [c|] eqn:Hfind; [|done]. simpl.
  apply search_chain_Some in Hfind as [Hin Hid].
  destruct (decide (key n = UINT_MAX)) as [Hmax|Hocc].
  - rewrite (Hun _ _ Hn Hmax) in Hin. simpl in Hin.
    by apply list_elem_of_singleton in Hin as ->.
  - destruct Hns. exists c. split; [|done]. apply elem_of_contents.
    exists (Z.to_nat (to_uint (atoi id) mod tableSize t)), n.
    by rewrite bucket_bids_occupied.
Qed.

(** After a sequence of inserts the table holds what it held before and,
    of the sequence, the first record under each identifier that was not
    stored. *)
Lemma insert_all_first bids : ∀ t,
  table_ok t → 0 < tableSize t → untouched_heads t →
  ∃ t', insert_all bids t = Ok t' ∧ table_ok t' ∧ untouched_heads t'
        ∧ tableSize t' = tableSize t
        ∧ ∀ c, c ∈ contents t' ↔
               c ∈ contents t
               ∨ (¬ stored (bidId c) t
                  ∧ ∃ pre post, bids = pre ++ c :: post
                                ∧ bidId c ∉ bidId <$> pre).
Proof.
  induction bids as [|b bids IH]; intros t Hok Hs Hun.
  { exists t. do 4 (split; [done|]). intros c. split; [by left|].
    intros [Hc|(_ & pre & post & Heq & _)]; [done|]. by destruct pre. }
  destruct (Insert_completes t b Hok Hs) as (t1 & Hi & Hok1 & Hs1).
  pose proof (Insert_untouched_heads _ _ _ Hok Hun Hi) as Hun1.
  destruct (IH t1 Hok1) as (t' & Hrun & Hok' & Hun' & Hs' & Hc'); [lia|done|].
  exists t'. rewrite insert_all_cons, Hi. split; [done|]. split; [done|].
  split; [done|]. split; [congruence|]. intros c. rewrite Hc'.
  destruct (stored_dec_aux t (bidId b)) as [(d & Hd & Hdb)|Hns].
  - assert (t1 = t) as ->.
    { rewrite Insert_stored in Hi; [by simplify_eq | done | by exists d]. }
    split; (intros [Hc|(Hnc & pre & post & Heq & Hpre)]; [by left|right]);
      (split; [done|]).
    + exists (b :: pre), post. rewrite Heq. split; [done|].
      rewrite fmap_cons, not_elem_of_cons. split; [|done].
      intros Hcb. apply Hnc. exists d. split; [done | congruence].
    + destruct pre as [|b' pre]; simplify_eq/=.
      * destruct Hnc. by exists d.
      * apply not_elem_of_cons in Hpre as [_ Hpre]. eauto.
  - destruct (Insert_not_stored t b Hok Hs Hns) as (t1' & Hi' & Hc1).
    rewrite Hi in Hi'. simplify_eq. split.
    + intros [[Hc| ->]%Hc1|(Hnc & pre & post & Heq & Hpre)].
      * by left.
      * right. split; [done|]. exists [], bids. split; [done|].
        apply not_elem_of_nil.
      * right. split.
        { intros (d & Hd & Hdc). apply Hnc. exists d. split; [|done].
          apply Hc1. by left. }
        exists (b :: pre), post. rewrite Heq. split; [done|].
        rewrite fmap_cons, not_elem_of_cons. split; [|done].
        intros Hcb. apply Hnc. exists b. split; [|done]. apply Hc1. by right.
    + intros [Hc|(Hnc & pre & post & Heq & Hpre)].
      * left. apply Hc1. by left.
      * destruct pre as [|b' pre]; simplify_eq/=.
        { left. apply Hc1. by right. }
        apply not_elem_of_cons in Hpre as [Hcb Hpre]. right. split; [|eauto].
        intros (d & [Hd| ->]%Hc1 & Hdc); [|done]. apply Hnc. by exists d.
Qed.

Lemma insert_all_new_table size bids id :
  1 ≤ size ≤ UINT_MAX →
  ∃ t, insert_all bids (HashTable_sized size) = Ok t
       ∧ Search id t
         = Ok (default Bid_default (head (filter (λ c, bidId c = id) bids)))
       ∧ ∀ c, c ∈ contents t ↔
              ∃ pre post, bids = pre ++ c :: post ∧ bidId c ∉ bidId <$> pre.
Proof.
  intros Hs. set (t0 := HashTable_sized size).
  assert (table_ok t0) as Hok0 by (apply HashTable_sized_ok; lia).
  assert (untouched_heads t0) as Hun0
    by (by intros i n [-> _]%lookup_replicate _).
  assert (∀ id', ¬ stored id' t0) as Hns0.
  { intros id' (c & Hc & _). unfold t0 in Hc. rewrite contents_new in Hc.
    by apply elem_of_nil in Hc. }
  destruct (insert_all_first bids t0 Hok0) as (t & Hrun & Hok & Hun & Hsize & Hc);
    [simpl; lia | done |].
  assert (∀ c, c ∈ contents t ↔
               ∃ pre post, bids = pre ++ c :: post ∧ bidId c ∉ bidId <$> pre)
    as Hfirst.
  { intros c. rewrite Hc. unfold t0 at 1. rewrite contents_new, elem_of_nil.
    split; [intros [[]|[_ ?]]; done | intros ?; right; split; [apply Hns0|done]]. }
  exists t. split; [done|]. split; [|done].
  destruct (head (filter (λ c, bidId c = id) bids)) as [b|] eqn:Hhead; simpl.
  - pose proof (head_Some_elem_of _ _ Hhead) as [Hid _]%list_elem_of_filter.
    apply head_filter_Some in Hhead as (pre & post & Heq & Hpre).
    simpl in Hid. subst id. apply Search_contents; [done|]. apply Hfirst.
    exists pre, post. split; [done|].
    intros (c & Hcid & Hcin)%list_elem_of_fmap.
    rewrite Forall_forall in Hpre. apply (Hpre c Hcin). congruence.
  - apply Search_not_stored_untouched; [done|done|simpl in Hsize; lia|].
    intros (c & (pre & post & Heq & _)%Hfirst & Hid).
    apply head_None in Hhead.
    eapply (filter_nil_not_elem_of _ _ c Hhead Hid). rewrite Heq.
    apply elem_of_app. right. by left.
Qed.


(** X13. Inserting any sequence of records, identifiers repeated or not,
    into a new table with at least one bucket completes; the table then
    holds exactly the first record of the sequence under each identifier,
    and [Search] on any identifier returns the first record of the
    sequence with this identifier, or the default record if there is
    none. *)
Theorem inserts_first_wins size bids id :
  1 ≤ size ≤ UINT_MAX →
  ∃ t, insert_all bids (HashTable_sized size) = Ok t
       ∧ Search id t
         = Ok (default Bid_default (head (filter (λ c, bidId c = id) bids)))
       ∧ ∀ c, c ∈ contents t ↔
              ∃ pre post, bids = pre ++ c :: post ∧ bidId c ∉ bidId <$> pre.
Proof. apply insert_all_new_table. Qed.

Lemma inserts_first_wins_witness :
  1 ≤ 5 ≤ UINT_MAX
  ∧ ∃ t, insert_all [bid_0; bid_5; bid_0_again] (HashTable_sized 5) = Ok t
         ∧ Search "0" t
           = Ok (default Bid_default
                   (head (filter (λ c, bidId c = "0")
                            [bid_0; bid_5; bid_0_again])))
         ∧ ∀ c, c ∈ contents t ↔
                ∃ pre post, [bid_0; bid_5; bid_0_again] = pre ++ c :: post
                            ∧ bidId c ∉ bidId <$> pre.
Proof.
  assert (1 ≤ 5 ≤ UINT_MAX) as Hs by (unfold UINT_MAX; lia).
  split; [exact Hs|].
  exact (inserts_first_wins 5 [bid_0; bid_5; bid_0_again] "0" Hs).
Defined.

(** ** The loader *)

Lemma remove_char_app ch s1 s2 :
  remove_char ch (s1 +:+ s2) = remove_char ch s1 +:+ remove_char ch s2.
Proof.
  induction s1 as [|c s1 IH]; [done|]. simpl. case_decide; [done|].
  simpl. by rewrite IH.
Qed.

Lemma remove_char_absent ch s :
  ¬ In ch (list_ascii_of_string s) → remove_char ch s = s.
Proof.
  induction s as [|c s IH]; [done|]. simpl. intros Hin.
  rewrite decide_False by (intros ->; apply Hin; by left).
  rewrite IH; [done|]. intros Hs. apply Hin. by right.
Qed.

Lemma remove_char_gone ch s : ¬ In ch (list_ascii_of_string (remove_char ch s)).
Proof.
  induction s as [|c s IH]; [by intros []|]. simpl. case_decide; [done|].
  simpl. intros [->|Hin]; done.
Qed.

(** X14. [strToDouble] takes every occurrence of the character out of
    the text before it parses it, wherever it stands: the result does
    not depend on occurrences of the character, the parsed text holds
    none, and a text without the character is parsed as it is. *)
Theorem strToDouble_ignores_char atof s1 s2 ch :
  strToDouble atof (s1 +:+ String ch s2) ch = strToDouble atof (s1 +:+ s2) ch
  ∧ ¬ In ch (list_ascii_of_string (remove_char ch (s1 +:+ s2)))
  ∧ (¬ In ch (list_ascii_of_string s1) →
     strToDouble atof s1 ch = atof (c_str s1)).
Proof.
  split; [|split].
  - unfold strToDouble. rewrite !remove_char_app. simpl.
    by rewrite decide_True.
  - apply remove_char_gone.
  - intros Hin. unfold strToDouble. by rewrite remove_char_absent.
Qed.

Lemma loadBids_from_rows atof cell count : ∀ i t n,
  n + Z.of_nat count ≤ INT_MAX →
  loadBids_from atof cell i count t n
  = (t' ← insert_all (rows_read atof cell i count) t;
     Ok (mkLoaded t' (n + Z.of_nat (length (rows_read atof cell i count)))
           (bool_decide (length (rows_read atof cell i count) < count)%nat))).
Proof.
  induction count as [|count IH]; intros i t n Hmax; simpl.
  - by rewrite Z.add_0_r.
  - destruct (read_bid atof cell i) as [b|]; simpl.
    + rewrite insert_all_cons. destruct (Insert b t) as [t1|]; [|done].
      simpl. unfold increment. rewrite decide_True by lia. simpl.
      rewrite IH by lia.
      destruct (insert_all (rows_read atof cell (S i) count) t1); [|done].
      simpl. do 2 f_equal; [lia|]. apply bool_decide_ext. lia.
    + by rewrite Z.add_0_r.
Qed.

(** Whatever the number of rows, a load that completes leaves an [int]
    in [bidCount]. *)
Lemma loadBids_from_count_range atof cell count : ∀ i t n r,
  0 ≤ n ≤ INT_MAX → loadBids_from atof cell i count t n = Ok r →
  n ≤ bidCount r ≤ INT_MAX.
Proof.
  induction count as [|count IH]; intros i t n r Hn; simpl.
  - intros ?; simplify_eq. simpl. lia.
  - destruct (read_bid atof cell i) as [b|]; [|intros ?; simplify_eq; simpl; lia].
    destruct (Insert b t) as [t1|]; [|done]. simpl. unfold increment.
    case_decide; [|done]. simpl. intros Hr.
    apply IH in Hr; lia.
Qed.

(** A file with more rows that read than an [int] counts: [bidCount++]
    overflows. *)
Lemma loadBids_from_overflow atof cell count : ∀ i t n,
  table_ok t → 0 < tableSize t →
  (∀ j, is_Some (read_bid atof cell j)) →
  n ≤ INT_MAX < n + Z.of_nat count →
  loadBids_from atof cell i count t n = Fault SignedOverflow.
Proof.
  induction count as [|count IH]; intros i t n Hok Hs Hall Hn; simpl; [lia|].
  destruct (Hall i) as [b ->].
  destruct (Insert_completes t b Hok Hs) as (t1 & -> & Hok1 & Hs1). simpl.
  unfold increment. case_decide; [|done]. simpl.
  apply IH; [done | lia | done | lia].
Qed.

Lemma rows_read_length atof cell count : ∀ i,
  (length (rows_read atof cell i count) ≤ count)%nat.
Proof.
  induction count as [|count IH]; intros i; simpl; [done|].
  destruct (read_bid atof cell i); simpl; [|lia]. specialize (IH (S i)). lia.
Qed.

(** The rows read are the rows from [i] on, in order. *)
Lemma rows_read_lookup atof cell count : ∀ i j b,
  rows_read atof cell i count !! j = Some b →
  read_bid atof cell (i + j) = Some b.
Proof.
  induction count as [|count IH]; intros i j b; simpl; [done|].
  destruct (read_bid atof cell i) as [b'|] eqn:Hread; [|done].
  destruct j as [|j]; simpl.
  - intros ?; simplify_eq. by rewrite Nat.add_0_r.
  - intros Hj%IH. by replace (i + S j)%nat with (S i + j)%nat by lia.
Qed.

(** Reading stops at the first row with a read that throws. *)
Lemma rows_read_stop atof cell count : ∀ i,
  (length (rows_read atof cell i count) < count)%nat →
  read_bid atof cell (i + length (rows_read atof cell i count)) = None.
Proof.
  induction count as [|count IH]; intros i; simpl; [lia|].
  destruct (read_bid atof cell i) as [b|] eqn:Hread; simpl.
  - intros Hlt. rewrite <- (IH (S i)) by lia. f_equal. lia.
  - intros _. by rewrite Nat.add_0_r.
Qed.

Lemma Insert_contents_keep b t t' c :
  Insert b t = Ok t' → c ∈ contents t → c ∈ contents t'.
Proof.
  intros Hi (i & n & Hn & Hc)%elem_of_contents.
  destruct (lookup_same_length (nodes t') (nodes t) i n) as [n' Hn'];
    [by rewrite (Insert_length _ _ _ Hi) | done |].
  apply elem_of_contents. exists i, n'. split; [done|].
  destruct (Insert_bucket_bids _ _ _ _ _ _ Hi Hn Hn') as [-> | ->];
    [done | apply elem_of_app; by left].
Qed.

Lemma Insert_stores t b t' :
  table_ok t → Insert b t = Ok t' → stored (bidId b) t'.
Proof.
  intros Hok Hi. destruct (stored_dec_aux t (bidId b)) as [(c & Hc & Hid)|Hns].
  - exists c. split; [by eapply Insert_contents_keep | done].
  - pose proof (Insert_inv _ _ _ Hi) as (k & n & [Hs0 _]%hash_inv & _).
    pose proof (ok_size _ Hok).
    destruct (Insert_not_stored t b Hok) as (t1 & Hi1 & Hc1); [lia|done|].
    rewrite Hi in Hi1. simplify_eq. exists b. split; [|done]. apply Hc1.
    by right.
Qed.

Lemma insert_all_stores bids : ∀ t t',
  table_ok t → insert_all bids t = Ok t' →
  (∀ c, c ∈ contents t → c ∈ contents t')
  ∧ ∀ b, b ∈ bids → stored (bidId b) t'.
Proof.
  induction bids as [|b bids IH]; intros t t' Hok Hrun.
  { unfold insert_all in Hrun. simpl in Hrun. simplify_eq.
    split; [done|]. by intros b ?%elem_of_nil. }
  rewrite insert_all_cons in Hrun.
  destruct (Insert b t) as [t1|] eqn:Hi; [|done]. simpl in Hrun.
  destruct (IH t1 t' (Insert_ok _ _ _ Hok Hi) Hrun) as [Hkeep Hst].
  split.
  - intros c Hc. by eapply Hkeep, Insert_contents_keep.
  - intros c [->|Hc]%elem_of_cons; [|by apply Hst].
    destruct (Insert_stores _ _ _ Hok Hi) as (d & Hd & Hid).
    exists d. split; [by apply Hkeep | done].
Qed.

Lemma insert_all_stored_noop bids t :
  table_ok t → (∀ b, b ∈ bids → stored (bidId b) t) →
  insert_all bids t = Ok t.
Proof.
  intros Hok. induction bids as [|b bids IH]; intros Hst; [done|].
  rewrite insert_all_cons, Insert_stored; [|done|apply Hst; by left].
  simpl. apply IH. intros c Hc. apply Hst. by right.
Qed.

Lemma insert_all_completes bids : ∀ t,
  table_ok t → 0 < tableSize t →
  ∃ t', insert_all bids t = Ok t' ∧ table_ok t' ∧ tableSize t' = tableSize t.
Proof.
  induction bids as [|b bids IH]; intros t Hok Hs; [by exists t|].
  destruct (Insert_completes t b Hok Hs) as (t1 & Hi & Hok1 & Hs1).
  destruct (IH t1 Hok1) as (t' & Hrun & Hok' & Hs'); [lia|].
  exists t'. rewrite insert_all_cons, Hi. split; [done|].
  split; [done | congruence].
Qed.

(** X15. On a reachable table with at least one bucket, and for a file
    of at most [INT_MAX] rows, [loadBids] completes. It inserts, one
    after the other, the bids of the rows before the first row with a
    read that throws, and of no other row; [bidCount] is the number of
    these rows, at most [rowCount], whether their records were stored or
    were duplicates; an error is reported exactly when rows are left; the
    records stored before stay, and the identifier of every row read is
    stored afterwards. *)
Theorem loadBids_inserts_rows_read atof rowCount cell t :
  reachable t → 0 < tableSize t → Z.of_nat rowCount ≤ INT_MAX →
  ∃ t', insert_all (rows_read atof cell 0 rowCount) t = Ok t'
        ∧ loadBids atof rowCount cell t
          = Ok (mkLoaded t'
                  (Z.of_nat (length (rows_read atof cell 0 rowCount)))
                  (bool_decide
                     (length (rows_read atof cell 0 rowCount) < rowCount)%nat))
        ∧ reachable t'
        ∧ (length (rows_read atof cell 0 rowCount) ≤ rowCount)%nat
        ∧ (∀ j b, rows_read atof cell 0 rowCount !! j = Some b →
                  read_bid atof cell j = Some b)
        ∧ ((length (rows_read atof cell 0 rowCount) < rowCount)%nat →
           read_bid atof cell (length (rows_read atof cell 0 rowCount)) = None)
        ∧ (∀ c, c ∈ contents t → c ∈ contents t')
        ∧ (∀ b, b ∈ rows_read atof cell 0 rowCount → stored (bidId b) t').
Proof.
  intros Ht Hs Hrows. pose proof (reachable_ok _ Ht) as Hok.
  destruct (insert_all_completes (rows_read atof cell 0 rowCount) t Hok Hs)
    as (t' & Hrun & Hok' & Hs').
  destruct (insert_all_stores _ _ _ Hok Hrun) as [Hkeep Hst].
  exists t'. split; [done|]. split.
  { unfold loadBids. rewrite loadBids_from_rows by lia. rewrite Hrun. simpl.
    by rewrite Z.add_0_l. }
  split; [by eapply run_reachable|].
  split; [apply rows_read_length|].
  split; [intros j b; apply (rows_read_lookup atof cell rowCount 0)|].
  split; [apply (rows_read_stop atof cell rowCount 0)|]. done.
Qed.

Lemma loadBids_inserts_rows_read_witness :
  reachable HashTable_default ∧ 0 < tableSize HashTable_default
  ∧ Z.of_nat 4 ≤ INT_MAX
  ∧ ∃ t', insert_all (rows_read sample_atof sample_cell 0 4) HashTable_default
          = Ok t'
        ∧ loadBids sample_atof 4 sample_cell HashTable_default
          = Ok (mkLoaded t'
                  (Z.of_nat (length (rows_read sample_atof sample_cell 0 4)))
                  (bool_decide
                     (length (rows_read sample_atof sample_cell 0 4) < 4)%nat))
        ∧ reachable t'
        ∧ (length (rows_read sample_atof sample_cell 0 4) ≤ 4)%nat
        ∧ (∀ j b, rows_read sample_atof sample_cell 0 4 !! j = Some b →
                  read_bid sample_atof sample_cell j = Some b)
        ∧ ((length (rows_read sample_atof sample_cell 0 4) < 4)%nat →
           read_bid sample_atof sample_cell
             (length (rows_read sample_atof sample_cell 0 4)) = None)
        ∧ (∀ c, c ∈ contents HashTable_default → c ∈ contents t')
        ∧ (∀ b, b ∈ rows_read sample_atof sample_cell 0 4 →
                stored (bidId b) t').
Proof.
  assert (0 < tableSize HashTable_default) as Hs by (simpl; unfold DEFAULT_SIZE; lia).
  assert (Z.of_nat 4 ≤ INT_MAX) as Hrows by (unfold INT_MAX; lia).
  split; [exact HashTable_default_reachable|]. split; [exact Hs|].
  split; [exact Hrows|].
  exact (loadBids_inserts_rows_read sample_atof 4 sample_cell
           HashTable_default HashTable_default_reachable Hs Hrows).
Defined.

Example sample_load :
  ∃ t', loadBids sample_atof 4 sample_cell HashTable_default
        = Ok (mkLoaded t' 3 true)
        ∧ contents t'
          = [mkBid "98011" "Chair" "General Fund" 5;
             mkBid "98190" "Table" "Enterprise" 5].
Proof. eexists. split; [vm_compute; reflexivity|]. vm_compute. reflexivity. Qed.

(** X16. Loading a file of at most [INT_MAX] rows into a new table with
    at least one bucket completes, and [Search] on any identifier then
    returns the bid of the first row read that carries it (later rows
    with the same identifier are counted in [bidCount] but not stored) or
    the default record if no row read carries it; [bidCount] is an
    [int], and the table holds at most [bidCount] records. *)
Theorem loadBids_new_table atof rowCount cell size id :
  1 ≤ size ≤ UINT_MAX → Z.of_nat rowCount ≤ INT_MAX →
  ∃ r, loadBids atof rowCount cell (HashTable_sized size) = Ok r
       ∧ bidCount r = Z.of_nat (length (rows_read atof cell 0 rowCount))
       ∧ 0 ≤ bidCount r ≤ INT_MAX
       ∧ Search id (loaded_table r)
         = Ok (default Bid_default
                 (head (filter (λ c, bidId c = id)
                          (rows_read atof cell 0 rowCount))))
       ∧ Z.of_nat (live_count (loaded_table r)) ≤ bidCount r.
Proof.
  intros Hs Hrows.
  destruct (insert_all_new_table size (rows_read atof cell 0 rowCount) id Hs)
    as (t & Hrun & Hsearch & Hfirst).
  pose proof (rows_read_length atof cell rowCount 0) as Hlen.
  eexists. split.
  { unfold loadBids. rewrite loadBids_from_rows by lia.
    fold (insert_all (rows_read atof cell 0 rowCount) (HashTable_sized size)).
    rewrite Hrun. simpl. reflexivity. }
  simpl. split; [done|]. split; [lia|]. split; [done|].
  apply Nat2Z.inj_le. unfold live_count. apply submseteq_length.
  apply NoDup_submseteq.
  - eapply NoDup_fmap_1, table_ok_NoDup, reachable_ok, run_reachable;
      [|exact Hrun]. apply reachable_new. lia.
  - intros c (pre & post & -> & _)%Hfirst. apply elem_of_app. right. by left.
Qed.

Lemma loadBids_new_table_witness :
  1 ≤ DEFAULT_SIZE ≤ UINT_MAX ∧ Z.of_nat 4 ≤ INT_MAX
  ∧ ∃ r, loadBids sample_atof 4 sample_cell (HashTable_sized DEFAULT_SIZE)
         = Ok r
       ∧ bidCount r
         = Z.of_nat (length (rows_read sample_atof sample_cell 0 4))
       ∧ 0 ≤ bidCount r ≤ INT_MAX
       ∧ Search "98011" (loaded_table r)
         = Ok (default Bid_default
                 (head (filter (λ c, bidId c = "98011")
                          (rows_read sample_atof sample_cell 0 4))))
       ∧ Z.of_nat (live_count (loaded_table r)) ≤ bidCount r.
Proof.
  assert (1 ≤ DEFAULT_SIZE ≤ UINT_MAX) as Hs
    by (unfold DEFAULT_SIZE, UINT_MAX; lia).
  assert (Z.of_nat 4 ≤ INT_MAX) as Hrows by (unfold INT_MAX; lia).
  split; [exact Hs|]. split; [exact Hrows|].
  exact (loadBids_new_table sample_atof 4 sample_cell DEFAULT_SIZE "98011"
           Hs Hrows).
Defined.

(** X17. Loading the same file, of at most [INT_MAX] rows, a second time
    changes nothing in the table and counts the same rows again: on a
    reachable table with at least one bucket both loads complete, the
    table after the second load is the table after the first, and
    [bidCount] and the error report are the same. *)
Theorem loadBids_twice atof rowCount cell t :
  reachable t → 0 < tableSize t → Z.of_nat rowCount ≤ INT_MAX →
  ∃ r, loadBids atof rowCount cell t = Ok r
       ∧ loadBids atof rowCount cell (loaded_table r) = Ok r.
Proof.
  intros Hok%reachable_ok Hs Hrows.
  destruct (insert_all_completes (rows_read atof cell 0 rowCount) t Hok Hs)
    as (t' & Hrun & Hok' & Hs').
  destruct (insert_all_stores _ _ _ Hok Hrun) as [_ Hst].
  eexists. unfold loadBids. rewrite !loadBids_from_rows by lia.
  rewrite Hrun. simpl.
  split; [reflexivity|]. cbn [loaded_table].
  by rewrite (insert_all_stored_noop _ _ Hok' Hst).
Qed.

Lemma loadBids_twice_witness :
  reachable HashTable_default ∧ 0 < tableSize HashTable_default
  ∧ Z.of_nat 4 ≤ INT_MAX
  ∧ ∃ r, loadBids sample_atof 4 sample_cell HashTable_default = Ok r
         ∧ loadBids sample_atof 4 sample_cell (loaded_table r) = Ok r.
Proof.
  assert (0 < tableSize HashTable_default) as Hs by (simpl; unfold DEFAULT_SIZE; lia).
  assert (Z.of_nat 4 ≤ INT_MAX) as Hrows by (unfold INT_MAX; lia).
  split; [exact HashTable_default_reachable|]. split; [exact Hs|].
  split; [exact Hrows|].
  exact (loadBids_twice sample_atof 4 sample_cell HashTable_default
           HashTable_default_reachable Hs Hrows).
Defined.

(** ** Other buckets *)

Lemma Search_set_bucket_ne t k n id k' :
  hash t (atoi id) = Ok k' → Z.to_nat k' ≠ Z.to_nat k →
  Search id (set_bucket t k n) = Search id t.
Proof.
  intros Hk' Hne. unfold Search. rewrite hash_set_bucket, Hk'.
  change (Ok k' ≫= ?f) with (f k'). cbv beta.
  unfold at_. by rewrite (set_bucket_lookup_ne t k n (Z.to_nat k')).
Qed.

(** X18. [Insert] and [Remove] work on one bucket only: in a table with
    at least one bucket, for an identifier that [hash] sends to another
    bucket than the one operated on, the head node of its bucket and
    what [Search] returns are the same before and after. *)
Theorem other_buckets_unchanged t id id' k k' :
  0 < tableSize t →
  hash t (atoi id) = Ok k → hash t (atoi id') = Ok k' → k' ≠ k →
  (∀ b t', bidId b = id → Insert b t = Ok t' →
           nodes t' !! Z.to_nat k' = nodes t !! Z.to_nat k'
           ∧ Search id' t' = Search id' t)
  ∧ (∀ t' r, Remove id t = Ok (t', r) →
             nodes t' !! Z.to_nat k' = nodes t !! Z.to_nat k'
             ∧ Search id' t' = Search id' t).
Proof.
  intros Hs Hk Hk' Hne.
  assert (Z.to_nat k' ≠ Z.to_nat k) as Hnat.
  { destruct (hash_inv _ _ _ Hk) as [_ Hkeq].
    destruct (hash_inv _ _ _ Hk') as [_ Hkeq'].
    pose proof (Z.mod_pos_bound (to_uint (atoi id)) _ Hs).
    pose proof (Z.mod_pos_bound (to_uint (atoi id')) _ Hs). lia. }
  split.
  - intros b t' <- Hi. open_Insert Hi k0 n Hk0 Hn.
    assert (k0 = k) as -> by congruence. simplify_eq.
    split; [by apply set_bucket_lookup_ne | by eapply Search_set_bucket_ne].
  - intros t' r Hr. open_Remove Hr k0 n Hk0 Hn.
    assert (k0 = k) as -> by congruence.
    case_decide; simplify_eq;
      (split; [by apply set_bucket_lookup_ne | by eapply Search_set_bucket_ne]).
Qed.

Lemma other_buckets_unchanged_witness :
  0 < tableSize scenario_table
  ∧ hash scenario_table (atoi "0") = Ok 0
  ∧ hash scenario_table (atoi "1") = Ok 1 ∧ 1 ≠ 0
  ∧ (∀ b t', bidId b = "0" → Insert b scenario_table = Ok t' →
             nodes t' !! Z.to_nat 1 = nodes scenario_table !! Z.to_nat 1
             ∧ Search "1" t' = Search "1" scenario_table)
  ∧ (∀ t' r, Remove "0" scenario_table = Ok (t', r) →
             nodes t' !! Z.to_nat 1 = nodes scenario_table !! Z.to_nat 1
             ∧ Search "1" t' = Search "1" scenario_table).
Proof.
  assert (0 < tableSize scenario_table) as Hs by (simpl; lia).
  assert (1 ≠ 0) as Hne by lia.
  split; [exact Hs|]. split; [reflexivity|]. split; [reflexivity|].
  split; [exact Hne|].
  exact (other_buckets_unchanged scenario_table "0" "1" 0 1 Hs
           eq_refl eq_refl Hne).
Defined.
